(** * ffrbll_replay: replaying a free-list log as a sequence of frames

    A shallow embedding of [src/generic/mem_allocation/ffrbll_replay.py]
    and the properties of its parser, bounds computation, grid layout,
    occupancy counters and per-event frames.

    Conventions of the embedding.
    - Python [int] is [Z].  The numpy counters ([dtype=int]) are [Z] as
      well: a counter moves by one per event and cannot reach the 64-bit
      limits in a run that fits in memory.  [int(text)] raises
      [ValueError] on a text of more than 4300 digits, the default limit
      of the interpreter on the conversion of integer strings.
    - Python [str] is [string], one character per code point below 256,
      among which [\d] matches exactly the ASCII digits.
    - The three float computations of the layout ([n**0.5], [n / width],
      [2048 / width]) are embedded twice.  [grid_layout_float] computes
      them in double precision, with the [OverflowError] of a size out of
      the range of doubles; [grid_layout] has their exact values.  The
      two agree for every size up to [2^52].  The frames of a run are
      built from the exact layout, and what is stated about them has the
      form: if the run returns its frames, then they are such and such.
      A run over more than [2^52] cells returns no frames: its arrays do
      not fit in memory.  The [MemoryError] of an array that does not fit
      depends on the machine and is not part of the embedding.
    - An exception leaving a function is an [outcome] with [Raised].
    - A frame records what the loop computes, the colours of the grid
      cells, the layout and the three texts; what the imaging library does
      with them is not part of the embedding. *)

From Stdlib Require Import ZArith QArith Ascii String List Lia.
From stdpp Require Import base list strings pretty.

Local Open Scope Z_scope.
Local Open Scope list_scope.

(** ** Outcomes of calls that may raise *)

Inductive exception : Set := ValueError | TypeError | OverflowError.

Inductive outcome (A : Type) : Type :=
| Returned (a : A)
| Raised (e : exception).

Arguments Returned {A} a.
Arguments Raised {A} e.

#[global] Instance outcome_ret : MRet outcome := fun A a => Returned a.

#[global] Instance outcome_bind : MBind outcome := fun A B k x =>
  match x with
  | Returned a => k a
  | Raised e => Raised e
  end.

(** Evaluating a list comprehension whose element expression may raise:
    left to right, stopping at the first exception. *)
Fixpoint comprehension {A B : Type} (f : A -> outcome B) (l : list A)
  : outcome (list B) :=
  match l with
  | [] => Returned []
  | a :: l' => b ← f a; bs ← comprehension f l'; mret (b :: bs)
  end.

(** ** Events *)

(** [(mode, offset, size)], the tuples built by [parse_events]. *)
Definition event : Type := string * Z * Z.

Definition ev_mode (e : event) : string := fst (fst e).
Definition ev_offset (e : event) : Z := snd (fst e).
Definition ev_size (e : event) : Z := snd e.

(** ** parse_events *)

Module Parser.

Definition newline : ascii := ascii_of_nat 10.

Definition is_digit (c : ascii) : bool :=
  ((48 <=? N_of_ascii c) && (N_of_ascii c <=? 57))%N.

Definition is_mode (c : ascii) : bool :=
  Ascii.eqb c "+"%char || Ascii.eqb c "-"%char.

(** Greedy [\d*]: the longest run of digits and what follows it. *)
Fixpoint span_digits (s : string) : string * string :=
  match s with
  | EmptyString => (EmptyString, EmptyString)
  | String c s' =>
      if is_digit c
      then let '(d, r) := span_digits s' in (String c d, r)
      else (EmptyString, s)
  end.

(** [(-?\d+)]: the captured text and the remainder.  A digit run is
    followed in the pattern by a space or by [$], neither of which a
    digit satisfies, so the greedy run is the only one that can match. *)
Definition match_int (s : string) : option (string * string) :=
  let '(sign, s1) :=
    match s with
    | String c s' => if Ascii.eqb c "-" then ("-"%string, s') else (EmptyString, s)
    | EmptyString => (EmptyString, s)
    end in
  match span_digits s1 with
  | (EmptyString, _) => None
  | (d, r) => Some (sign +:+ d, r)
  end.

(** [$] under [re.MULTILINE]: at the end of the text or before a newline. *)
Definition at_eol (s : string) : bool :=
  match s with
  | EmptyString => true
  | String c _ => Ascii.eqb c newline
  end.

(** One attempt of [([+-]) (-?\d+) (-?\d+)$] at a position where [^]
    holds; the three captured groups. *)
Definition match_here (s : string) : option (string * string * string) :=
  match s with
  | String m (String sp s1) =>
      if is_mode m && Ascii.eqb sp " " then
        match match_int s1 with
        | Some (offset, String sp' s2) =>
            if Ascii.eqb sp' " " then
              match match_int s2 with
              | Some (size, rest) =>
                  if at_eol rest
                  then Some (String m EmptyString, offset, size)
                  else None
              | None => None
              end
            else None
        | _ => None
        end
      else None
  | _ => None
  end.

(** [re.findall(pattern, text, flags=re.MULTILINE)]: the pattern is tried
    at every position from left to right; [bol] tells whether [^] holds
    at the current one (start of the text, or just after a newline).  A
    match contains no newline, so no position inside it satisfies [^] and
    walking through it finds nothing more, as resuming after it does. *)
Fixpoint findall (bol : bool) (s : string) : list (string * string * string) :=
  match s with
  | EmptyString => []
  | String c s' =>
      match (if bol then match_here s else None) with
      | Some g => g :: findall (Ascii.eqb c newline) s'
      | None => findall (Ascii.eqb c newline) s'
      end
  end.

Definition digit_value (c : ascii) : Z := Z.of_N (N_of_ascii c) - 48.

Fixpoint int_digits (acc : Z) (s : string) : outcome Z :=
  match s with
  | EmptyString => Returned acc
  | String c s' =>
      if is_digit c then int_digits (10 * acc + digit_value c) s'
      else Raised ValueError
  end.

(** The interpreter's limit on the conversion of integer strings: a text
    with more digit characters than this is a [ValueError].  Leading
    zeros count as digits, the sign does not. *)
Definition max_str_digits : nat := 4300.

(** [int(text)] for an optional minus sign followed by decimal digits,
    the only texts the pattern captures.  Any other text is given
    [ValueError]; Python reads a few more spellings, a leading plus sign
    or surrounding blanks, that [parse_events] never passes. *)
Definition int (s : string) : outcome Z :=
  match s with
  | EmptyString => Raised ValueError
  | String c s' =>
      if Ascii.eqb c "-" then
        match s' with
        | EmptyString => Raised ValueError
        | _ =>
            if (max_str_digits <? String.length s')%nat then Raised ValueError
            else v ← int_digits 0 s'; mret (- v)
        end
      else
        if (max_str_digits <? String.length s)%nat then Raised ValueError
        else int_digits 0 s
  end.

Definition parse_events (replay_file_contents : string) : outcome (list event) :=
  comprehension
    (fun '(mode, offset, size) =>
       o ← int offset; z ← int size; mret (mode, o, z))
    (findall true replay_file_contents).

End Parser.

Import Parser.

(** ** calc_bounds *)

(** The values [min_offset] and [max_offset] go through: [float("inf")],
    [float("-inf")], or an [int] taken from an event. *)
Inductive number : Set :=
| Int (z : Z)
| Inf
| NegInf.

(** [a < b] between such values. *)
Definition number_lt (a b : number) : bool :=
  match a, b with
  | Int x, Int y => x <? y
  | Int _, Inf => true
  | Int _, NegInf => false
  | Inf, _ => false
  | NegInf, NegInf => false
  | NegInf, _ => true
  end.

Fixpoint calc_bounds_loop (min_offset max_offset : number) (events : list event)
  : number * number :=
  match events with
  | [] => (min_offset, max_offset)
  | (_, offset, size) :: rest =>
      let min_offset :=
        if number_lt (Int offset) min_offset then Int offset else min_offset in
      let max_offset :=
        if number_lt max_offset (Int (offset + size))
        then Int (offset + size) else max_offset in
      calc_bounds_loop min_offset max_offset rest
  end.

Definition calc_bounds (events : list event) : number * number :=
  calc_bounds_loop Inf NegInf events.

(** ** Grid layout *)

(** The layout is embedded twice: with the exact values of the root and
    of the quotients, which is what the frames of a run are built from
    here, and in double precision as the interpreter computes it
    ([grid_layout_float] below).  The two agree for every size up to
    [2 ^ 52] (lemma [grid_layout_float_exact]). *)

(** [int(ceil(n**0.5))], exactly.  For a negative [n] the power is a
    complex number and [ceil] raises [TypeError]. *)
Definition ceil_sqrt (n : Z) : outcome Z :=
  if n <? 0 then Raised TypeError
  else let r := Z.sqrt n in Returned (if r * r =? n then r else r + 1).

(** [int(ceil(n / d))] for a positive [d], exactly. *)
Definition ceil_div (n d : Z) : Z := - ((- n) / d).

Record layout : Set := Layout {
  width : Z;
  height : Z;
  padding_pixels : Z;
  cell_size : Z
}.

(** Lines 66 to 72 of [replay_iterate], with the exact values of the
    root and of the two quotients. *)
Definition grid_layout (allocations_size : Z) : outcome layout :=
  root ← ceil_sqrt allocations_size;
  let width := Z.max 32 root in
  let height := ceil_div allocations_size width in
  let padding_pixels := width * height - allocations_size in
  let cell_size := Z.max 1 (Z.min 10 (2048 / width)) in
  mret (Layout width height padding_pixels cell_size).

(** ** The layout in double precision *)

(** Lines 66, 67 and 72 go through floats: [n ** 0.5] converts [n] to a
    double and takes its root, [n / width] and [2048 / width] are true
    divisions of two integers.  [Float] holds what these operations
    compute on doubles; infinities, NaN and subnormal numbers do not
    arise from them here and are left out. *)
Module Float.

(** A finite double, as the number [mant * 2 ^ expo]. *)
Record t : Set := Make { mant : Z; expo : Z }.

(** [num / den] rounded to an integer, ties to the even one, for a
    positive [den]. *)
Definition round_half_even (num den : Z) : Z :=
  let q := num / den in
  match 2 * (num mod den) ?= den with
  | Lt => q
  | Gt => q + 1
  | Eq => if Z.even q then q else q + 1
  end.

(** The magnitude is beyond the largest double. *)
Definition overflows (x : t) : bool :=
  (0 <=? expo x) && (2 ^ 1024 <=? Z.abs (mant x) * 2 ^ expo x).

(** [float(n)]: [n] rounded to 53 significant bits;
    [OverflowError: int too large to convert to float] when the rounded
    value is out of range. *)
Definition of_int (n : Z) : outcome t :=
  let a := Z.abs n in
  let s := Z.max 0 (Z.log2 a - 52) in
  let x := Make (Z.sgn n * round_half_even a (2 ^ s)) s in
  if overflows x then Raised OverflowError else Returned x.

(** The square root of an integer [X >= 0] rounded to 53 significant
    bits: with [e] the exponent of the last place of the root,
    [F = floor (sqrt X / 2 ^ e)], and the root lies above the midpoint
    [(F + 1/2) * 2 ^ e] exactly when [4 * X > (2 * F + 1) ^ 2 * 4 ^ e]. *)
Definition sqrt_int (X : Z) : t :=
  let e := Z.log2 X / 2 - 52 in
  let N := X * 4 ^ Z.max 0 (- e) in
  let D := 4 ^ Z.max 0 e in
  let F := Z.sqrt (N / D) in
  let up :=
    match 4 * N ?= (2 * F + 1) ^ 2 * D with
    | Gt => true
    | Eq => Z.odd F
    | Lt => false
    end in
  Make (if up then F + 1 else F) e.

(** [x ** 0.5] for a double [x >= 0], taken as the correctly rounded
    square root.  The C library's [pow] behind it promises an error
    below one unit in the last place: it gives this double whenever the
    root is itself a double, and otherwise one of the two doubles around
    the root, as a rule but not always the nearer one.  What is proved
    of the layout below [2 ^ 52] holds for either of the two
    (lemma [ceil_scaled_root]). *)
Definition sqrt (x : t) : t :=
  let '(m, e) :=
    if Z.odd (expo x) then (2 * mant x, expo x - 1) else (mant x, expo x) in
  let r := sqrt_int m in
  Make (mant r) (expo r + e / 2).

(** The quotient of two positive integers rounded to 53 significant
    bits: [e] is the exponent of the last place of the quotient. *)
Definition div_pos (a b : Z) : t :=
  let scaled e := (a * 2 ^ Z.max 0 (- e), b * 2 ^ Z.max 0 e) in
  let e0 := Z.log2 a - Z.log2 b - 53 in
  let e := if 2 ^ 53 <=? fst (scaled e0) / snd (scaled e0) then e0 + 1 else e0 in
  Make (round_half_even (fst (scaled e)) (snd (scaled e))) e.

(** [a / b] on two integers, [a >= 0] and [b > 0]: the correctly rounded
    quotient; [OverflowError: integer division result too large for a
    float] when it is out of range. *)
Definition int_true_divide (a b : Z) : outcome t :=
  if a =? 0 then Returned (Make 0 0)
  else
    let x := div_pos a b in
    if overflows x then Raised OverflowError else Returned x.

(** [math.ceil(x)], an integer. *)
Definition ceil (x : t) : Z :=
  if 0 <=? expo x then mant x * 2 ^ expo x
  else - ((- mant x) / 2 ^ (- expo x)).

(** [int(x)]: rounding towards zero. *)
Definition trunc (x : t) : Z :=
  if 0 <=? expo x then mant x * 2 ^ expo x
  else Z.quot (mant x) (2 ^ (- expo x)).

End Float.

(** Lines 66 to 72 of [replay_iterate] as they are computed in double
    precision.  The conversion of [allocations_size] to a double comes
    first, so that a size out of the range of doubles is an
    [OverflowError] whatever its sign; the root of a negative double is a
    complex number, and [ceil] raises [TypeError] on it. *)
Definition grid_layout_float (allocations_size : Z) : outcome layout :=
  x ← Float.of_int allocations_size;
  if allocations_size <? 0 then Raised TypeError
  else
    let width := Z.max 32 (Float.ceil (Float.sqrt x)) in
    q ← Float.int_true_divide allocations_size width;
    let height := Float.ceil q in
    let padding_pixels := width * height - allocations_size in
    c ← Float.int_true_divide 2048 width;
    let cell_size := Z.max 1 (Z.min 10 (Float.trunc c)) in
    mret (Layout width height padding_pixels cell_size).

(** ** The occupancy counters *)

(** A slice bound [i] on a sequence of length [len], as Python and numpy
    normalise it: a negative bound counts from the end, and the result is
    clamped to [0, len]. *)
Definition slice_index (i len : Z) : Z :=
  if i <? 0 then Z.max 0 (i + len) else Z.min i len.

(** Whether position [j] belongs to [a[start:stop]] for [len(a) = len]. *)
Definition in_slice (start stop len : Z) (j : nat) : bool :=
  (slice_index start len <=? Z.of_nat j) && (Z.of_nat j <? slice_index stop len).

(** [a[start:stop] += d], on the flat view [allocated_dma] that shares
    its cells with [allocated_2d]. *)
Definition slice_iadd (a : list Z) (start stop d : Z) : list Z :=
  imap (fun j c => if in_slice start stop (Z.of_nat (length a)) j then c + d else c) a.

(** Line 87. *)
Definition apply_event (min_offset : Z) (allocated : list Z) (e : event) : list Z :=
  let '(mode, offset, size) := e in
  slice_iadd allocated (offset - min_offset) (offset + size - min_offset)
    (if String.eqb mode "+" then 1 else -1).

(** The counters once a whole prefix of the events has been applied. *)
Definition apply_events (min_offset : Z) (allocated : list Z) (events : list event)
  : list Z :=
  fold_left (apply_event min_offset) events allocated.

(** ** Frames *)

Definition colour : Set := Z * Z * Z.

Definition background : Z := 190.
Definition used_colour : colour := (25, 25, 127).
Definition free_colour : colour := (24, 190, 24).
Definition invalid_colour : colour := (255, 0, 0).

(** [image[mask] = value] *)
Definition mask_assign (mask : list bool) (value : colour) (image : list colour)
  : list colour :=
  zip_with (fun (m : bool) p => if m then value else p) mask image.

(** [image.ravel()[-3*padding_pixels:] = background], seen on pixels: the
    flat view has three channels per pixel, so the slice covers whole
    pixels, the last [padding_pixels] of them. *)
Definition fill_tail (image : list colour) (padding_pixels : Z) : list colour :=
  let len := Z.of_nat (length image) in
  imap (fun j p => if in_slice (- padding_pixels) len len j
                   then (background, background, background) else p) image.

Definition is_free_mask (allocated : list Z) : list bool :=
  (fun c => c =? 1) <$> allocated.

Definition invalid_mask (allocated : list Z) : list bool :=
  (fun c => (c <? 0) || (c >? 1)) <$> allocated.

(** Lines 89 to 97: the colours of the [height * width] grid cells in
    row-major order, before the cells are magnified. *)
Definition render_image (allocated : list Z) (padding_pixels : Z) : list colour :=
  let image := replicate (length allocated) used_colour in
  let image := if padding_pixels =? 0 then image else fill_tail image padding_pixels in
  let image := mask_assign (is_free_mask allocated) free_colour image in
  mask_assign (invalid_mask allocated) invalid_colour image.

(** The result of a numpy true division of integers: a quotient, or for a
    zero divisor [nan] or an infinity (numpy warns and does not raise). *)
Inductive np_float : Set :=
| Finite (q : Q)
| NaN
| PosInf
| NegInfinity.

Definition true_divide (a b : Z) : np_float :=
  if b =? 0 then
    (if a =? 0 then NaN else if 0 <? a then PosInf else NegInfinity)
  else Finite (Qred (inject_Z a / inject_Z b)).

(** [mask.sum()] *)
Definition mask_sum (mask : list bool) : Z :=
  Z.of_nat (length (filter (fun b : bool => b = true) mask)).

Module Format.

Definition hex_char (x : Z) : ascii :=
  match x with
  | 0 => "0" | 1 => "1" | 2 => "2" | 3 => "3" | 4 => "4" | 5 => "5"
  | 6 => "6" | 7 => "7" | 8 => "8" | 9 => "9" | 10 => "a" | 11 => "b"
  | 12 => "c" | 13 => "d" | 14 => "e" | _ => "f"
  end%char.

Fixpoint hex_go (fuel : nat) (x : Z) (acc : string) : string :=
  match fuel with
  | O => acc
  | S fuel' =>
      if x <=? 0 then acc
      else hex_go fuel' (x / 16) (String (hex_char (x mod 16)) acc)
  end.

(** The hexadecimal digits of a natural number, lower case, no prefix. *)
Definition hex (x : Z) : string :=
  if x <=? 0 then "0" else hex_go (S (Z.to_nat (Z.log2 x))) x "".

Definition zfill (w : nat) (s : string) : string :=
  string_of_list_ascii (replicate (w - String.length s) "0"%char) +:+ s.

(** ["{:08x}".format(x)]: zero padded to eight characters, the sign
    first and counted in the eight. *)
Definition format_08x (x : Z) : string :=
  if x <? 0 then "-" +:+ zfill 7 (hex (- x)) else zfill 8 (hex x).

(** [str(x)] *)
Definition str (x : Z) : string := pretty x.

End Format.

Record frame : Set := Frame {
  image : list colour;
  image_layout : layout;
  idx_text : string;
  (** the number formatted by ["Free: {0:.2%}"] *)
  percent_free : np_float;
  operation_text : string
}.

(** The body of the loop from line 89 on, for the counters [allocated]
    as line 87 left them.  Magnifying the cells, drawing the three texts
    on the canvas and quantising the palette are left to the imaging
    library; the frame keeps what they are given. *)
Definition render_frame (l : layout) (allocations_size : Z)
    (idx : nat) (e : event) (allocated : list Z) : frame :=
  let '(mode, offset, size) := e in
  {| image := render_image allocated (padding_pixels l);
     image_layout := l;
     idx_text := "Event ID: " +:+ Format.str (Z.of_nat idx);
     percent_free := true_divide (mask_sum (is_free_mask allocated)) allocations_size;
     operation_text :=
       (if String.eqb mode "+" then "free " else "alloc")
       +:+ " 0x" +:+ Format.format_08x offset +:+ " : " +:+ Format.str size |}.

(** [for idx, (mode, offset, size) in enumerate(events)], collecting the
    frames in the order they are yielded. *)
Fixpoint replay_loop (l : layout) (min_offset allocations_size : Z)
    (idx : nat) (events : list event) (allocated : list Z) : list frame :=
  match events with
  | [] => []
  | e :: rest =>
      let allocated := apply_event min_offset allocated e in
      render_frame l allocations_size idx e allocated
      :: replay_loop l min_offset allocations_size (S idx) rest allocated
  end.

(** [numpy.zeros((height, width), dtype=int).ravel()] *)
Definition zeros (l : layout) : list Z :=
  replicate (Z.to_nat (height l * width l)) 0.

(** [list(replay_iterate(contents))].  The only exceptions of the
    generator come before its first [yield], so an outcome with all the
    frames or with the exception describes every run.  The last branch
    is dead code: the bounds of a non-empty list are integers
    ([calc_bounds_nonempty]). *)
Definition replay_iterate (replay_file_contents : string) : outcome (list frame) :=
  events ← parse_events replay_file_contents;
  match events with
  | [] => Returned []
  | _ :: _ =>
      match calc_bounds events with
      | (Int lo, Int hi) =>
          let allocations_size := hi - lo in
          l ← grid_layout allocations_size;
          mret (replay_loop l lo allocations_size 0 events (zeros l))
      | _ => Raised TypeError
      end
  end.

(** ** The generator step by step, and [replay_to_gif] *)

(** A text written to [sys.stdout], by the values it is formatted from:
    ["\r{0:.2%}\t[{1}/{2}]"] with the fraction of events done, their
    number and the total, or ["\nALL DONE\n"]. *)
Inductive stdout_write : Set :=
| Progress (fraction : Q) (done total : nat)
| AllDone.

(** [(idx + 1) / len(events)]; the loop runs only for a total that is
    not zero. *)
Definition progress_fraction (done total : nat) : Q :=
  Qred (inject_Z (Z.of_nat done) / inject_Z (Z.of_nat total)).

(** The states of the generator object [replay_iterate(contents)]: not
    started; suspended at the [yield] of event [idx], with the events
    still to come and the counters; finished. *)
Inductive generator : Type :=
| Created (replay_file_contents : string)
| Suspended (l : layout) (min_offset allocations_size : Z) (total idx : nat)
    (rest : list event) (allocated : list Z)
| Finished.

(** What a call of [next] gives: the value of a [yield],
    [StopIteration], or an exception of the body. *)
Inductive resumption : Type :=
| Yields (fr : frame)
| StopIteration
| Raises (e : exception).

(** The [for] statement taking its next event, with the number [idx] it
    gets from [enumerate]: the body runs up to its [yield], or the loop
    is over and line 171 writes its text before the generator returns. *)
Definition loop_head (l : layout) (min_offset allocations_size : Z)
    (total idx : nat) (events : list event) (allocated : list Z)
  : resumption * generator * list stdout_write :=
  match events with
  | [] => (StopIteration, Finished, [AllDone])
  | e :: rest =>
      let allocated := apply_event min_offset allocated e in
      (Yields (render_frame l allocations_size idx e allocated),
       Suspended l min_offset allocations_size total idx rest allocated,
       [])
  end.

(** [next(g)]: the result, the generator afterwards, and what the call
    wrote to [sys.stdout].  A first call runs lines 57 to 83 and enters
    the loop; a later call resumes after the [yield], writes the
    progress of the event just shown and goes on with the loop. *)
Definition next (g : generator) : resumption * generator * list stdout_write :=
  match g with
  | Created contents =>
      match parse_events contents with
      | Raised e => (Raises e, Finished, [])
      | Returned [] => (StopIteration, Finished, [])
      | Returned ((_ :: _) as events) =>
          match calc_bounds events with
          | (Int lo, Int hi) =>
              match grid_layout (hi - lo) with
              | Raised e => (Raises e, Finished, [])
              | Returned l =>
                  loop_head l lo (hi - lo) (length events) 0 events (zeros l)
              end
          | _ => (Raises TypeError, Finished, [])
          end
      end
  | Suspended l lo n total idx rest allocated =>
      let '(r, g', out) := loop_head l lo n total (S idx) rest allocated in
      (r, g', Progress (progress_fraction (S idx) total) (S idx) total :: out)
  | Finished => (StopIteration, Finished, [])
  end.

(** [k] calls of [next] in a row, stopping early once the generator has
    stopped or raised: the results in order, the generator afterwards and
    all that was written. *)
Fixpoint nexts (k : nat) (g : generator)
  : list resumption * generator * list stdout_write :=
  match k with
  | O => ([], g, [])
  | S k' =>
      match next g with
      | (Yields fr, g', out) =>
          let '(rs, g'', out') := nexts k' g' in (Yields fr :: rs, g'', out ++ out')
      | (r, g', out) => ([r], g', out)
      end
  end.

(** [list(g)], with what running it wrote: [next] is called until the
    generator stops or raises.  [None] when [fuel] calls do not reach
    that point. *)
Fixpoint list_of (fuel : nat) (g : generator)
  : option (outcome (list frame) * list stdout_write) :=
  match fuel with
  | O => None
  | S fuel' =>
      match next g with
      | (Yields fr, g', out) =>
          match list_of fuel' g' with
          | Some (Returned frames, out') => Some (Returned (fr :: frames), out ++ out')
          | Some (Raised e, out') => Some (Raised e, out ++ out')
          | None => None
          end
      | (StopIteration, _, out) => Some (Returned [], out)
      | (Raises e, _, out) => Some (Raised e, out)
      end
  end.

(** The call [images[0].save(out_gif, save_all=True,
    append_images=images[1:], optimize=False, duration=1, loop=0)]. *)
Record save_call : Type := SaveCall {
  save_image : frame;
  save_fp : string;
  save_all : bool;
  append_images : list frame;
  optimize : bool;
  duration : Z;
  loop : Z
}.

(** [replay_to_gif]: the call of [save] it makes, if any, and what was
    written to [sys.stdout]. *)
Definition replay_to_gif (fuel : nat) (replay_file_contents out_gif : string)
  : option (outcome (option save_call) * list stdout_write) :=
  match list_of fuel (Created replay_file_contents) with
  | None => None
  | Some (Raised e, out) => Some (Raised e, out)
  | Some (Returned images, out) =>
      Some (Returned
              match images with
              | [] => None
              | first :: rest => Some (SaveCall first out_gif true rest false 1 0)
              end,
            out)
  end.

(** The canvas of a frame, lines 110 to 158: its size, the box the grid
    image is pasted into, and the corners where the three texts start. *)
Record canvas : Set := Canvas {
  canvas_size : Z * Z;
  paste_at : Z * Z;
  pasted_size : Z * Z;
  text_height : Z;
  text_at : list (Z * Z)
}.

Definition frame_canvas (l : layout) : canvas :=
  let margin := 10 in
  let text_height := 10 in
  let text_margin := 2 in
  let text_start := (margin, margin * 2 + height l * cell_size l) in
  {| canvas_size :=
       (width l * cell_size l + margin * 2,
        height l * cell_size l + margin * 3 + text_height * 3 + text_margin * 2);
     paste_at := (margin, margin);
     pasted_size := (width l * cell_size l, height l * cell_size l);
     text_height := text_height;
     text_at :=
       [(text_start.1, text_start.2 + (text_height + text_margin) * 0);
        (text_start.1, text_start.2 + (text_height + text_margin) * 1);
        (text_start.1, text_start.2 + (text_height + text_margin) * 2)] |}.

(** The progress texts of a complete run over [total] events. *)
Definition progress_log (total : nat) : list stdout_write :=
  (fun done => Progress (progress_fraction done total) done total) <$> seq 1 total.

(** ** Vocabulary of the properties *)

(** The lines of a text: the pieces between newline characters. *)
Fixpoint lines (s : string) : list string :=
  match s with
  | EmptyString => [EmptyString]
  | String c s' =>
      if Ascii.eqb c newline then EmptyString :: lines s'
      else match lines s' with
           | l :: ls => String c l :: ls
           | [] => [String c EmptyString]
           end
  end.

(** The text up to the first newline. *)
Fixpoint first_line (s : string) : string :=
  match s with
  | EmptyString => EmptyString
  | String c s' => if Ascii.eqb c newline then EmptyString else String c (first_line s')
  end.

(** A non-empty run of decimal digits. *)
Inductive digits : string -> Prop :=
| digits_last c : is_digit c = true -> digits (String c EmptyString)
| digits_more c s : is_digit c = true -> digits s -> digits (String c s).

(** A decimal numeral with an optional minus sign. *)
Inductive numeral : string -> Prop :=
| numeral_plain d : digits d -> numeral d
| numeral_minus d : digits d -> numeral (String "-" d).

(** The number a run of digits denotes, most significant digit first. *)
Fixpoint decimal (s : string) : Z :=
  match s with
  | EmptyString => 0
  | String c s' => digit_value c * 10 ^ Z.of_nat (String.length s') + decimal s'
  end.

Definition numeral_value (t : string) : Z :=
  match t with
  | EmptyString => 0
  | String c t' => if Ascii.eqb c "-" then - decimal t' else decimal t
  end.

(** The number of digit characters of a numeral. *)
Definition numeral_digits (t : string) : nat :=
  match t with
  | EmptyString => 0
  | String c t' => if Ascii.eqb c "-" then String.length t' else String.length t
  end.

(** Line [l] has the form [<'+' or '-'> <integer> <integer>] and one of
    its two numerals has more digits than [int] converts. *)
Definition oversized_line (l : string) : Prop :=
  exists mode offset size : string,
    l = mode +:+ " " +:+ offset +:+ " " +:+ size
    /\ (mode = "+"%string \/ mode = "-"%string)
    /\ numeral offset /\ numeral size
    /\ (max_str_digits < numeral_digits offset
        \/ max_str_digits < numeral_digits size)%nat.

(** Line [l] has the form [<'+' or '-'> <integer> <integer>] and
    denotes event [e]. *)
Definition event_line (l : string) (e : event) : Prop :=
  exists offset size : string,
    l = ev_mode e +:+ " " +:+ offset +:+ " " +:+ size
    /\ (ev_mode e = "+"%string \/ ev_mode e = "-"%string)
    /\ numeral offset /\ numeral size
    /\ ev_offset e = numeral_value offset /\ ev_size e = numeral_value size.

(** [events] holds one event per line of that form, in the order of the
    lines, and nothing for the other lines. *)
Inductive parsed_lines : list string -> list event -> Prop :=
| parsed_nil : parsed_lines [] []
| parsed_event l e ls es :
    event_line l e -> parsed_lines ls es -> parsed_lines (l :: ls) (e :: es)
| parsed_skip l ls es :
    (forall e, ~ event_line l e) -> parsed_lines ls es -> parsed_lines (l :: ls) es.

(** What follows a greedy digit run does not start with a digit. *)
Definition stops (r : string) : Prop :=
  match r with
  | EmptyString => True
  | String c _ => is_digit c = false
  end.

(** The counters that frame [k] of a run shows: all zero at the start,
    then the first [k + 1] events applied. *)
Definition counters_at (events : list event) (lo : Z) (l : layout) (k : nat) : list Z :=
  apply_events lo (zeros l) (take (S k) events).

(** The colouring in the words of the specification: green for a counter
    of 0, dark blue for a counter of 1, red for any other. *)
Definition stated_unit_colour (c : Z) : colour :=
  if c =? 0 then free_colour else if c =? 1 then used_colour else invalid_colour.

(** How many of the counters are 1. *)
Definition count_ones (counters : list Z) : Z :=
  Z.of_nat (length (filter (fun c => c = 1) counters)).

(** Reading hexadecimal digits back, most significant digit first. *)
Definition hex_digit_value (c : ascii) : Z :=
  let n := Z.of_N (N_of_ascii c) in
  if n <=? 57 then n - 48 else n - 87.

Fixpoint hex_value (s : string) : Z :=
  match s with
  | EmptyString => 0
  | String c s' => hex_digit_value c * 16 ^ Z.of_nat (String.length s') + hex_value s'
  end.

(** The description in the words of the specification:
    ["{alloc|free} 0x{offset:08x} : {size}"], [alloc] for ['+']. *)
Definition stated_operation_text (e : event) : string :=
  (if String.eqb (ev_mode e) "+" then "alloc" else "free")
  +:+ " 0x" +:+ Format.format_08x (ev_offset e) +:+ " : " +:+ Format.str (ev_size e).

(** The amount line 87 adds to the counters of the slice of an event. *)
Definition event_delta (e : event) : Z :=
  if String.eqb (ev_mode e) "+" then 1 else -1.

(** Whether the address range [offset, offset + size) of an event holds
    the address [a]. *)
Definition covers (e : event) (a : Z) : bool :=
  (ev_offset e <=? a) && (a <? ev_offset e + ev_size e).

(** The number of ['+'] events of the list that cover [a], minus the
    number of its other events that cover [a]. *)
Fixpoint net_count (events : list event) (a : Z) : Z :=
  match events with
  | [] => 0
  | e :: rest => (if covers e a then event_delta e else 0) + net_count rest a
  end.

(** What the slices of a list of events add, in all, at index [j] of an
    array of length [len]. *)
Fixpoint slice_sum (min_offset len : Z) (events : list event) (j : nat) : Z :=
  match events with
  | [] => 0
  | e :: rest =>
      (if in_slice (ev_offset e - min_offset) (ev_offset e + ev_size e - min_offset) len j
       then event_delta e else 0)
      + slice_sum min_offset len rest j
  end.

(** An event written as a line of a log: the mode, the offset and the
    size in decimal, with single spaces between them. *)
Definition format_line (e : event) : string :=
  ev_mode e +:+ " " +:+ Format.str (ev_offset e) +:+ " " +:+ Format.str (ev_size e).

(** Lines put together with a newline between each two. *)
Fixpoint join_lines (ls : list string) : string :=
  match ls with
  | [] => EmptyString
  | [l] => l
  | l :: ls' => l +:+ String newline (join_lines ls')
  end.

(** * Properties *)

(** ** The embedding on small inputs *)

Example parse_two_lines :
  parse_events ("+ 0 10" +:+ String newline "- -4 7")
  = Returned [("+"%string, 0, 10); ("-"%string, -4, 7)].
Proof. reflexivity. Qed.

Example parse_ignores_carriage_return :
  parse_events ("+ 0 10" +:+ String (ascii_of_nat 13) (String newline "- 0 10"))
  = Returned [("-"%string, 0, 10)].
Proof. reflexivity. Qed.

Example negative_stop_counts_from_the_end :
  slice_iadd [0; 0; 0; 0; 0; 0] 1 (-2) 1 = [0; 1; 1; 1; 0; 0].
Proof. reflexivity. Qed.

Example slice_is_clamped :
  slice_iadd [0; 0; 0] (-7) 9 (-1) = [-1; -1; -1].
Proof. reflexivity. Qed.

Example format_08x_negative : Format.format_08x (-5) = "-0000005"%string.
Proof. reflexivity. Qed.

Example format_08x_wide : Format.format_08x (2 ^ 40) = "10000000000"%string.
Proof. reflexivity. Qed.

Example frame_of_second_event :
  (fun fr => (idx_text fr, percent_free fr, operation_text fr))
    <$> match replay_iterate ("+ 0 8" +:+ String newline "- 4 4") with
        | Returned frames => frames !! 1%nat
        | Raised _ => None
        end
  = Some ("Event ID: 1"%string, Finite (1 # 2), "alloc 0x00000004 : 4"%string).
Proof. reflexivity. Qed.

(** ** The parser *)

Section ParserFacts.

Local Open Scope string_scope.

Lemma append_nil (b : string) : "" ++ b = b.
Proof. reflexivity. Qed.

Lemma append_cons x (a b : string) : String x a ++ b = String x (a ++ b).
Proof. reflexivity. Qed.

Lemma length_append (a b : string) :
  String.length (a +:+ b) = (String.length a + String.length b)%nat.
Proof.
  induction a as [|x a IH]; [reflexivity|].
  rewrite append_cons. simpl. now rewrite IH.
Qed.

Lemma append_assoc (a b c : string) : (a ++ b) ++ c = a ++ (b ++ c).
Proof.
  induction a as [|x a IH]; [reflexivity|].
  rewrite !append_cons. now rewrite IH.
Qed.

Lemma is_digit_not_newline c : is_digit c = true -> Ascii.eqb c newline = false.
Proof.
  intros H. destruct (Ascii.eqb_spec c newline) as [->|]; [discriminate H | reflexivity].
Qed.

Lemma is_digit_not_minus c : is_digit c = true -> Ascii.eqb c "-" = false.
Proof.
  intros H. destruct (Ascii.eqb_spec c "-") as [->|]; [discriminate H | reflexivity].
Qed.

Lemma is_digit_not_space c : is_digit c = true -> Ascii.eqb c " " = false.
Proof.
  intros H. destruct (Ascii.eqb_spec c " ") as [->|]; [discriminate H | reflexivity].
Qed.

Lemma span_digits_spec s d r :
  span_digits s = (d, r) -> s = d ++ r /\ (d = "" \/ digits d) /\ stops r.
Proof.
  revert d r. induction s as [|c s IH]; simpl; intros d r H.
  - inversion H; subst. split; [reflexivity|]. split; [now left | exact I].
  - destruct (is_digit c) eqn:Hc.
    + destruct (span_digits s) as [d' r'] eqn:Hs. inversion H; subst.
      destruct (IH d' r eq_refl) as (-> & Hd & Hr).
      split; [reflexivity|]. split; [|assumption]. right.
      destruct Hd as [->|Hd]; [now apply digits_last | now apply digits_more].
    + inversion H; subst. split; [reflexivity|]. split; [now left | exact Hc].
Qed.

Lemma span_digits_complete d r :
  digits d -> stops r -> span_digits (d ++ r) = (d, r).
Proof.
  intros Hd Hr. induction Hd as [c Hc|c d Hc Hd IH];
    rewrite append_cons; simpl; rewrite Hc.
  - rewrite append_nil. destruct r as [|x r]; simpl in *; [reflexivity | now rewrite Hr].
  - now rewrite IH.
Qed.

Lemma digits_head d : digits d -> exists c d', d = String c d' /\ is_digit c = true.
Proof. destruct 1; eauto. Qed.

Lemma match_int_spec s t r :
  match_int s = Some (t, r) -> s = t ++ r /\ numeral t /\ stops r.
Proof.
  unfold match_int. destruct s as [|c s].
  - simpl. discriminate.
  - destruct (Ascii.eqb_spec c "-") as [->|Hc].
    + destruct (span_digits s) as [d r'] eqn:Hs.
      apply span_digits_spec in Hs as (-> & Hd & Hr).
      destruct d as [|x d]; [discriminate|]. intros [= <- <-].
      destruct Hd as [Hd|Hd]; [discriminate|].
      repeat split; [now apply numeral_minus | assumption].
    + destruct (span_digits (String c s)) as [d r'] eqn:Hs.
      apply span_digits_spec in Hs as (Heq & Hd & Hr).
      destruct d as [|x d]; [discriminate|]. intros [= <- <-].
      destruct Hd as [Hd|Hd]; [discriminate|].
      repeat split; [assumption | now apply numeral_plain | assumption].
Qed.

Lemma match_int_complete t r :
  numeral t -> stops r -> match_int (t ++ r) = Some (t, r).
Proof.
  intros [d Hd|d Hd] Hr; unfold match_int.
  - destruct (digits_head d Hd) as (c & d' & -> & Hc).
    rewrite append_cons, (is_digit_not_minus c Hc), <- append_cons.
    now rewrite (span_digits_complete _ _ Hd Hr).
  - rewrite append_cons. simpl. rewrite (span_digits_complete _ _ Hd Hr).
    destruct (digits_head d Hd) as (c & d' & -> & _). reflexivity.
Qed.

Lemma span_digits_first_line s :
  span_digits (first_line s)
  = (fst (span_digits s), first_line (snd (span_digits s))).
Proof.
  induction s as [|c s IH]; [reflexivity|]. simpl.
  destruct (Ascii.eqb_spec c newline) as [->|Hc]; [reflexivity|].
  simpl. destruct (is_digit c) eqn:Hd.
  - rewrite IH. destruct (span_digits s) as [d r]. reflexivity.
  - simpl. now rewrite (proj2 (Ascii.eqb_neq c newline) Hc).
Qed.

Lemma match_int_first_line s :
  match_int (first_line s)
  = match match_int s with
    | Some (t, r) => Some (t, first_line r)
    | None => None
    end.
Proof.
  destruct s as [|c s]; [reflexivity|]. unfold match_int at 2.
  destruct (Ascii.eqb_spec c "-") as [->|Hm].
  - change (first_line (String "-" s)) with (String "-"%char (first_line s)).
    unfold match_int. simpl (Ascii.eqb _ _). cbv iota beta.
    rewrite span_digits_first_line.
    destruct (span_digits s) as [[|x d] r]; reflexivity.
  - pose proof (span_digits_first_line (String c s)) as H.
    simpl in H |- *. destruct (Ascii.eqb_spec c newline) as [->|Hc].
    + reflexivity.
    + unfold match_int. rewrite (proj2 (Ascii.eqb_neq c "-") Hm), H.
      destruct (is_digit c); [|reflexivity].
      destruct (span_digits s) as [d r]. reflexivity.
Qed.

Lemma at_eol_first_line r : at_eol (first_line r) = at_eol r.
Proof.
  destruct r as [|c r]; [reflexivity|]. simpl.
  destruct (Ascii.eqb_spec c newline) as [->|Hc]; [reflexivity|].
  simpl. now apply Ascii.eqb_neq.
Qed.

Lemma match_here_first_line s : match_here (first_line s) = match_here s.
Proof.
  destruct s as [|m s]; [reflexivity|]. simpl.
  destruct (Ascii.eqb_spec m newline) as [->|Hm].
  { destruct s; reflexivity. }
  destruct s as [|sp s1]; [reflexivity|]. simpl.
  destruct (Ascii.eqb_spec sp newline) as [->|Hsp].
  { simpl. now rewrite andb_false_r. }
  destruct (is_mode m && Ascii.eqb sp " ")%bool; [|reflexivity].
  rewrite match_int_first_line.
  destruct (match_int s1) as [[offset [|sp' s2]]|]; [reflexivity| |reflexivity].
  simpl. destruct (Ascii.eqb_spec sp' newline) as [->|Hsp']; [reflexivity|].
  destruct (Ascii.eqb sp' " "); [|reflexivity].
  rewrite match_int_first_line.
  destruct (match_int s2) as [[size rest]|]; [|reflexivity].
  now rewrite at_eol_first_line.
Qed.

Lemma lines_first_line s : exists ls, lines s = first_line s :: ls.
Proof.
  induction s as [|c s [ls IH]]; simpl; [now exists []|].
  destruct (Ascii.eqb c newline); [now eexists|].
  rewrite IH. now eexists.
Qed.

Lemma first_line_idem s : first_line (first_line s) = first_line s.
Proof.
  induction s as [|c s IH]; [reflexivity|]. simpl.
  destruct (Ascii.eqb c newline) eqn:Hc; [reflexivity|]. simpl. now rewrite Hc, IH.
Qed.

(** No line of a text contains a newline. *)
Lemma lines_no_newline s : Forall (fun l => first_line l = l) (lines s).
Proof.
  induction s as [|c s IH]; simpl; [now repeat constructor|].
  destruct (Ascii.eqb c newline) eqn:Hc; [now constructor|].
  destruct (lines s) as [|l ls]; simpl.
  - repeat constructor. simpl. now rewrite Hc.
  - inversion IH as [|? ? Hl Hls]; subst. constructor; [|assumption].
    simpl. now rewrite Hc, Hl.
Qed.

#[local] Arguments match_here : simpl never.

(** The scan finds the matches of the lines, line by line. *)
Lemma findall_lines s :
  findall true s = omap match_here (lines s)
  /\ findall false s = omap match_here (tail (lines s)).
Proof.
  induction s as [|c s [IHt IHf]]; [now split|].
  simpl findall. simpl lines.
  destruct (Ascii.eqb_spec c newline) as [->|Hc].
  - split; [|exact IHt].
    replace (match_here (String newline s)) with (@None (string * string * string))
      by (destruct s; reflexivity).
    exact IHt.
  - destruct (lines_first_line s) as [ls Hls]. rewrite Hls in *. simpl in IHf |- *.
    split; [|exact IHf].
    rewrite <- (match_here_first_line (String c s)). simpl first_line.
    rewrite (proj2 (Ascii.eqb_neq c newline) Hc).
    destruct (match_here (String c (first_line s))); now rewrite IHf.
Qed.

Lemma append_nil_r (a : string) : a ++ "" = a.
Proof.
  induction a as [|x a IH]; [reflexivity|]. now rewrite append_cons, IH.
Qed.

Lemma no_newline_suffix (a b : string) :
  first_line (a ++ b) = a ++ b -> first_line b = b.
Proof.
  induction a as [|x a IH]; [trivial|]. rewrite append_cons. simpl.
  destruct (Ascii.eqb x newline); [discriminate|]. intros [= H]. auto.
Qed.

Lemma at_eol_no_newline r : at_eol r = true -> first_line r = r -> r = "".
Proof.
  destruct r as [|c r]; [reflexivity|]. simpl. intros ->. discriminate.
Qed.

Lemma is_mode_spec c : is_mode c = true <-> (c = "+" \/ c = "-")%char.
Proof.
  unfold is_mode. rewrite orb_true_iff, !Ascii.eqb_eq. reflexivity.
Qed.

Lemma match_here_sound l m offset size :
  match_here l = Some (m, offset, size) -> first_line l = l ->
  l = m ++ " " ++ offset ++ " " ++ size
  /\ (m = "+" \/ m = "-") /\ numeral offset /\ numeral size.
Proof.
  unfold match_here. destruct l as [|c [|sp s1]]; try discriminate.
  destruct (is_mode c) eqn:Hc; [|discriminate].
  destruct (Ascii.eqb_spec sp " ") as [->|]; [|discriminate]. simpl andb. cbv iota.
  destruct (match_int s1) as [[offset' [|sp' s2]]|] eqn:H1; try discriminate.
  destruct (Ascii.eqb_spec sp' " ") as [->|]; [|discriminate].
  destruct (match_int s2) as [[size' rest]|] eqn:H2; [|discriminate].
  destruct (at_eol rest) eqn:He; [|discriminate].
  intros [= <- <- <-] Hl.
  apply match_int_spec in H1 as (-> & Ho & _).
  apply match_int_spec in H2 as (-> & Hz & _).
  assert (rest = "") as ->.
  { apply at_eol_no_newline; [exact He|].
    change (String c (String " " (offset' ++ String " " (size' ++ rest))))
      with ((String c (String " " "")) ++ (offset' ++ String " " (size' ++ rest))) in Hl.
    apply no_newline_suffix in Hl.
    change (String " " (size' ++ rest)) with (String " " "" ++ (size' ++ rest)) in Hl.
    rewrite <- 2!append_assoc in Hl.
    now apply no_newline_suffix in Hl. }
  rewrite append_nil_r. split; [reflexivity|]. split; [|now split].
  apply is_mode_spec in Hc as [->| ->]; auto.
Qed.

Lemma match_here_complete c offset size :
  is_mode c = true -> numeral offset -> numeral size ->
  match_here (String c "" ++ " " ++ offset ++ " " ++ size)
  = Some (String c "", offset, size).
Proof.
  intros Hc Ho Hz.
  change (String c "" ++ " " ++ offset ++ " " ++ size)
    with (String c (String " " (offset ++ String " " size))).
  unfold match_here. rewrite Hc. simpl andb. cbv iota.
  rewrite (match_int_complete offset (String " " size) Ho) by reflexivity.
  simpl Ascii.eqb. cbv iota.
  rewrite <- (append_nil_r size) at 1.
  rewrite (match_int_complete size "" Hz) by exact I. reflexivity.
Qed.

Lemma int_digits_decimal d :
  digits d ->
  forall acc,
    int_digits acc d = Returned (acc * 10 ^ Z.of_nat (String.length d) + decimal d).
Proof.
  induction 1 as [c Hc|c d Hc Hd IH]; intros acc; simpl int_digits; rewrite Hc.
  - simpl. f_equal. lia.
  - rewrite IH. f_equal. cbn [String.length decimal].
    rewrite Nat2Z.inj_succ, Z.pow_succ_r by lia. ring.
Qed.

Lemma int_numeral t :
  numeral t -> (numeral_digits t <= max_str_digits)%nat ->
  int t = Returned (numeral_value t).
Proof.
  intros [d Hd|d Hd] Hlen.
  - destruct (digits_head d Hd) as (c & d' & -> & Hc).
    unfold int, numeral_value, numeral_digits in *.
    rewrite (is_digit_not_minus c Hc) in *.
    rewrite (proj2 (Nat.ltb_ge _ _) Hlen).
    rewrite (int_digits_decimal _ Hd). f_equal; lia.
  - unfold int, numeral_value, numeral_digits in *.
    change (Ascii.eqb "-" "-") with true in *. cbv iota in *.
    rewrite (proj2 (Nat.ltb_ge _ _) Hlen).
    rewrite (int_digits_decimal _ Hd).
    destruct (digits_head d Hd) as (c & d' & -> & _). cbn. f_equal; lia.
Qed.

Lemma int_numeral_long t :
  numeral t -> (max_str_digits < numeral_digits t)%nat -> int t = Raised ValueError.
Proof.
  intros [d Hd|d Hd] Hlen.
  - destruct (digits_head d Hd) as (c & d' & -> & Hc).
    unfold int, numeral_digits in *. rewrite (is_digit_not_minus c Hc) in *.
    now rewrite (proj2 (Nat.ltb_lt _ _) Hlen).
  - unfold int, numeral_digits in *.
    change (Ascii.eqb "-" "-") with true in *. cbv iota in *.
    rewrite (proj2 (Nat.ltb_lt _ _) Hlen).
    destruct (digits_head d Hd) as (c & d' & -> & _). reflexivity.
Qed.

(** What a line contributes, decided by [match_here]. *)
Lemma match_here_event_line l m offset size :
  first_line l = l -> match_here l = Some (m, offset, size) ->
  numeral offset /\ numeral size
  /\ l = m ++ " " ++ offset ++ " " ++ size
  /\ event_line l (m, numeral_value offset, numeral_value size).
Proof.
  intros Hl Hm. destruct (match_here_sound _ _ _ _ Hm Hl) as (Heq & Hmode & Ho & Hz).
  split; [exact Ho|]. split; [exact Hz|]. split; [exact Heq|].
  exists offset, size. repeat split; assumption.
Qed.

Lemma event_line_match_here l e :
  event_line l e ->
  exists offset size,
    match_here l = Some (ev_mode e, offset, size)
    /\ ev_offset e = numeral_value offset /\ ev_size e = numeral_value size.
Proof.
  intros (offset & size & -> & Hmode & Ho & Hz & Hvo & Hvz).
  exists offset, size. split; [|now split].
  destruct Hmode as [-> | ->]; now apply match_here_complete.
Qed.

Lemma event_line_functional l e e' : event_line l e -> event_line l e' -> e = e'.
Proof.
  intros H H'. apply event_line_match_here in H as (o & z & Hm & Ho & Hz).
  apply event_line_match_here in H' as (o' & z' & Hm' & Ho' & Hz').
  rewrite Hm in Hm'. injection Hm' as Hmode -> ->.
  destruct e as [[m vo] vz], e' as [[m' vo'] vz'].
  unfold ev_mode, ev_offset, ev_size in *. simpl in *. congruence.
Qed.

Lemma parsed_lines_functional ls es es' :
  parsed_lines ls es -> parsed_lines ls es' -> es = es'.
Proof.
  intros H. revert es'. induction H as [|l e ls es He _ IH|l ls es Hn _ IH];
    intros es' H'; inversion H'; subst.
  - reflexivity.
  - f_equal; [eapply event_line_functional; eassumption | auto].
  - exfalso. eapply H1. eassumption.
  - exfalso. eapply Hn. eassumption.
  - auto.
Qed.

Lemma oversized_line_match_here l :
  oversized_line l ->
  exists m offset size,
    match_here l = Some (m, offset, size)
    /\ numeral offset /\ numeral size
    /\ (max_str_digits < numeral_digits offset
        \/ max_str_digits < numeral_digits size)%nat.
Proof.
  intros (m & offset & size & -> & Hmode & Ho & Hz & Hlong).
  exists m, offset, size. split; [|now repeat split].
  destruct Hmode as [-> | ->]; now apply match_here_complete.
Qed.

(** The events of a run of lines that the comprehension got through. *)
Lemma comprehension_lines_returned ls :
  Forall (fun l => first_line l = l) ls ->
  forall events,
    comprehension
      (fun '(mode, offset, size) =>
         o ← int offset; z ← int size; mret (mode, o, z))
      (omap match_here ls) = Returned events ->
    parsed_lines ls events /\ Forall (fun l => ~ oversized_line l) ls.
Proof.
  induction 1 as [|l ls Hl _ IH]; intros events.
  { cbn. intros [= <-]. split; constructor. }
  cbn [omap list_omap]. destruct (match_here l) as [[[m offset] size]|] eqn:Hm.
  - destruct (match_here_event_line _ _ _ _ Hl Hm) as (Ho & Hz & Heq & Hline).
    cbn [comprehension].
    destruct (le_lt_dec (numeral_digits offset) max_str_digits) as [Hso|Hlo];
      [|rewrite (int_numeral_long _ Ho Hlo); discriminate].
    destruct (le_lt_dec (numeral_digits size) max_str_digits) as [Hsz|Hlz];
      [|rewrite (int_numeral _ Ho Hso), (int_numeral_long _ Hz Hlz); discriminate].
    rewrite (int_numeral _ Ho Hso), (int_numeral _ Hz Hsz). cbn.
    destruct (comprehension _ (omap match_here ls)) as [es|] eqn:Hes; [|discriminate].
    cbn. intros [= <-]. destruct (IH es eq_refl) as [Hp Hshort].
    split; [now constructor|]. constructor; [|exact Hshort].
    intros Hover. apply oversized_line_match_here in Hover
      as (m' & o' & z' & Hm' & _ & _ & Hlong).
    rewrite Hm in Hm'. injection Hm' as <- <- <-. lia.
  - intros Hev. destruct (IH events Hev) as [Hp Hshort].
    split.
    + apply parsed_skip; [|exact Hp].
      intros e He. apply event_line_match_here in He as (? & ? & He & _). congruence.
    + constructor; [|exact Hshort].
      intros Hover. apply oversized_line_match_here in Hover as (? & ? & ? & He & _).
      congruence.
Qed.

(** Without an oversized line the comprehension gets through. *)
Lemma comprehension_lines_short ls :
  Forall (fun l => first_line l = l) ls ->
  Forall (fun l => ~ oversized_line l) ls ->
  exists events,
    comprehension
      (fun '(mode, offset, size) =>
         o ← int offset; z ← int size; mret (mode, o, z))
      (omap match_here ls) = Returned events.
Proof.
  induction 1 as [|l ls Hl _ IH]; intros Hshort; [now exists []|].
  inversion Hshort as [|? ? Hnot Hrest]; subst.
  destruct (IH Hrest) as (events & Hev).
  cbn [omap list_omap]. destruct (match_here l) as [[[m offset] size]|] eqn:Hm;
    [|now exists events].
  destruct (match_here_event_line _ _ _ _ Hl Hm) as (Ho & Hz & Heq & Hline).
  assert (m = "+" \/ m = "-") as Hmode.
  { destruct Hline as (? & ? & _ & Hmode & _). exact Hmode. }
  assert (numeral_digits offset <= max_str_digits
          /\ numeral_digits size <= max_str_digits)%nat as [Hso Hsz].
  { destruct (le_lt_dec (numeral_digits offset) max_str_digits) as [Hso|Hlo];
      [|exfalso; apply Hnot; exists m, offset, size; repeat split; auto].
    destruct (le_lt_dec (numeral_digits size) max_str_digits) as [Hsz|Hlz];
      [|exfalso; apply Hnot; exists m, offset, size; repeat split; auto].
    now split. }
  eexists. cbn [comprehension].
  rewrite (int_numeral _ Ho Hso), (int_numeral _ Hz Hsz). cbn. rewrite Hev. reflexivity.
Qed.

(** The only exception of the parser is [ValueError], and an oversized
    line is what raises it. *)
Lemma comprehension_lines_raised ls exn :
  comprehension
    (fun '(mode, offset, size) =>
       o ← int offset; z ← int size; mret (mode, o, z))
    (omap match_here ls) = Raised exn ->
  Forall (fun l => first_line l = l) ls ->
  exn = ValueError /\ Exists oversized_line ls.
Proof.
  intros Hr Hls. revert Hr. induction Hls as [|l ls Hl _ IH]; [discriminate|].
  cbn [omap list_omap]. destruct (match_here l) as [[[m offset] size]|] eqn:Hm.
  2:{ intros Hr. destruct (IH Hr) as [-> Hex]. split; [reflexivity|now right]. }
  destruct (match_here_event_line _ _ _ _ Hl Hm) as (Ho & Hz & Heq & Hline).
  assert (m = "+" \/ m = "-") as Hmode.
  { destruct Hline as (? & ? & _ & Hmode & _). exact Hmode. }
  cbn [comprehension].
  destruct (le_lt_dec (numeral_digits offset) max_str_digits) as [Hso|Hlo].
  2:{ rewrite (int_numeral_long _ Ho Hlo). intros [= <-]. split; [reflexivity|].
      left. exists m, offset, size. repeat split; auto. }
  destruct (le_lt_dec (numeral_digits size) max_str_digits) as [Hsz|Hlz].
  2:{ rewrite (int_numeral _ Ho Hso), (int_numeral_long _ Hz Hlz). intros [= <-].
      split; [reflexivity|]. left. exists m, offset, size. repeat split; auto. }
  rewrite (int_numeral _ Ho Hso), (int_numeral _ Hz Hsz). cbn.
  destruct (comprehension _ (omap match_here ls)) as [es|exn'] eqn:Hes; [discriminate|].
  cbn. intros [= <-]. destruct (IH eq_refl) as [-> Hex]. split; [reflexivity|now right].
Qed.

Lemma parse_events_returned_lines contents events :
  parse_events contents = Returned events ->
  parsed_lines (lines contents) events
  /\ Forall (fun l => ~ oversized_line l) (lines contents).
Proof.
  unfold parse_events. rewrite (proj1 (findall_lines contents)).
  apply comprehension_lines_returned, lines_no_newline.
Qed.

Lemma parse_events_short contents :
  Forall (fun l => ~ oversized_line l) (lines contents) ->
  exists events,
    parse_events contents = Returned events /\ parsed_lines (lines contents) events.
Proof.
  intros Hshort.
  destruct (comprehension_lines_short _ (lines_no_newline contents) Hshort) as (events & Hev).
  exists events. unfold parse_events. rewrite (proj1 (findall_lines contents)).
  split; [exact Hev|].
  now apply (comprehension_lines_returned _ (lines_no_newline contents)).
Qed.

Lemma parse_events_raised contents exn :
  parse_events contents = Raised exn ->
  exn = ValueError /\ Exists oversized_line (lines contents).
Proof.
  intros Hr. unfold parse_events in Hr. rewrite (proj1 (findall_lines contents)) in Hr.
  eapply comprehension_lines_raised; [exact Hr | apply lines_no_newline].
Qed.

(** The mode of a parsed event is ["+"] or ["-"]. *)
Lemma parse_events_modes contents events :
  parse_events contents = Returned events ->
  Forall (fun e => ev_mode e = "+" \/ ev_mode e = "-") events.
Proof.
  intros Hp. destruct (parse_events_returned_lines _ _ Hp) as [Hl _]. clear Hp.
  induction Hl as [|l e ls es (_ & _ & _ & Hm & _) _ IH|]; auto.
Qed.

Lemma numeral_digits_le t : (numeral_digits t <= String.length t)%nat.
Proof.
  destruct t as [|c t]; [reflexivity|]. unfold numeral_digits.
  destruct (Ascii.eqb c "-"); simpl; lia.
Qed.

(** A line of at most 4300 characters has no oversized numeral. *)
Lemma short_line_not_oversized l :
  (String.length l <= max_str_digits)%nat -> ~ oversized_line l.
Proof.
  intros Hlen (m & offset & size & -> & _ & _ & _ & Hlong).
  rewrite !length_append in Hlen.
  pose proof (numeral_digits_le offset). pose proof (numeral_digits_le size). lia.
Qed.

Lemma parse_events_oversized contents :
  Exists oversized_line (lines contents) -> parse_events contents = Raised ValueError.
Proof.
  intros Hex. destruct (parse_events contents) as [events|exn] eqn:Hp.
  - destruct (parse_events_returned_lines _ _ Hp) as [_ Hshort].
    apply Exists_exists in Hex as (l & Hl & Hover).
    rewrite Forall_forall in Hshort. now destruct (Hshort l Hl).
  - now destruct (parse_events_raised _ _ Hp) as [-> _].
Qed.

Lemma digits_replicate c n :
  is_digit c = true -> digits (string_of_list_ascii (replicate (S n) c)).
Proof.
  intros Hc. induction n as [|n IH]; [now apply digits_last|].
  change (replicate (S (S n)) c) with (c :: replicate (S n) c).
  now apply digits_more.
Qed.

End ParserFacts.

(** C10. As long as no line of the form [<'+' or '-'> <integer>
    <integer>] holds a numeral of more than 4300 digits, [parse_events]
    returns exactly one event for each line of that form, in the order of
    the lines, skipping every other line; when there is such a line,
    [int] raises [ValueError] and no events are returned.  A log with one
    valid line and one line whose size is not a number gives one event. *)
Theorem parse_events_by_line :
  (forall contents : string,
     Forall (fun l => ~ oversized_line l) (lines contents) ->
     exists events,
       parse_events contents = Returned events
       /\ parsed_lines (lines contents) events
       /\ forall events', parsed_lines (lines contents) events' -> events' = events)
  /\ (forall contents : string,
        Exists oversized_line (lines contents) ->
        parse_events contents = Raised ValueError)
  /\ parse_events ("+ 0 10" +:+ String newline "+ 5 x")
     = Returned [("+"%string, 0, 10)].
Proof.
  split; [|split; [exact parse_events_oversized | reflexivity]]. intros contents Hshort.
  destruct (parse_events_short contents Hshort) as (events & Hev & Hp).
  exists events. split; [exact Hev|]. split; [exact Hp|].
  intros events' Hp'. eapply parsed_lines_functional; eassumption.
Qed.

Lemma parse_events_by_line_witness :
  Forall (fun l => ~ oversized_line l)
    (lines ("+ 0 10" +:+ String newline "+ 5 x"))
  /\ exists events,
       parse_events ("+ 0 10" +:+ String newline "+ 5 x") = Returned events
       /\ parsed_lines (lines ("+ 0 10" +:+ String newline "+ 5 x")) events
       /\ forall events',
            parsed_lines (lines ("+ 0 10" +:+ String newline "+ 5 x")) events' ->
            events' = events.
Proof.
  assert (Forall (fun l => ~ oversized_line l)
            (lines ("+ 0 10" +:+ String newline "+ 5 x"))) as Hshort.
  { repeat constructor; apply short_line_not_oversized; vm_compute; lia. }
  split; [exact Hshort|].
  exact (proj1 parse_events_by_line _ Hshort).
Defined.

(** The statement without the bound on the digits fails: a log whose one
    line has the form [<'+' or '-'> <integer> <integer>], with a size of
    4301 digits, gives no event; [int] raises [ValueError]. *)
Lemma parse_events_long_numeral_raises :
  let l := "+ 0 " +:+ string_of_list_ascii (replicate 4301 "1"%char) in
  lines l = [l]
  /\ (exists e, event_line l e)
  /\ parse_events l = Raised ValueError.
Proof.
  cbv zeta. split; [vm_compute; reflexivity|]. split; [|vm_compute; reflexivity].
  exists ("+"%string, 0, numeral_value (string_of_list_ascii (replicate 4301 "1"%char))).
  exists "0"%string, (string_of_list_ascii (replicate 4301 "1"%char)).
  split; [reflexivity|]. split; [now left|].
  split; [apply numeral_plain, digits_last; reflexivity|].
  split; [apply numeral_plain, digits_replicate; reflexivity|].
  split; reflexivity.
Qed.

(** ** Bounds *)

Section Bounds.

Implicit Types (events : list event) (e : event).

Lemma calc_bounds_loop_int events :
  forall lo hi,
    exists lo' hi',
      calc_bounds_loop (Int lo) (Int hi) events = (Int lo', Int hi')
      /\ lo' <= lo /\ hi <= hi'
      /\ (lo' = lo \/ exists e, e ∈ events /\ ev_offset e = lo')
      /\ (hi' = hi \/ exists e, e ∈ events /\ ev_offset e + ev_size e = hi')
      /\ (forall e, e ∈ events -> lo' <= ev_offset e)
      /\ (forall e, e ∈ events -> ev_offset e + ev_size e <= hi').
Proof.
  induction events as [|[[m o] s] events IH]; intros lo hi.
  - exists lo, hi.
    repeat split; try lia; auto; intros;
      match goal with H : _ ∈ [] |- _ => inversion H end.
  - cbn [calc_bounds_loop number_lt].
    set (lo1 := if o <? lo then o else lo).
    set (hi1 := if hi <? o + s then o + s else hi).
    replace (if o <? lo then Int o else Int lo) with (Int lo1)
      by (unfold lo1; now destruct (o <? lo)).
    replace (if hi <? o + s then Int (o + s) else Int hi) with (Int hi1)
      by (unfold hi1; now destruct (hi <? o + s)).
    destruct (IH lo1 hi1) as (lo' & hi' & Heq & Hlo & Hhi & Hlo_in & Hhi_in & Hmin & Hmax).
    assert (lo1 <= lo /\ lo1 <= o /\ (lo1 = lo \/ lo1 = o)) as (? & ? & Hlo1)
      by (unfold lo1; destruct (Z.ltb_spec o lo); lia).
    assert (hi <= hi1 /\ o + s <= hi1 /\ (hi1 = hi \/ hi1 = o + s)) as (? & ? & Hhi1)
      by (unfold hi1; destruct (Z.ltb_spec hi (o + s)); lia).
    exists lo', hi'. split; [exact Heq|]. split; [lia|]. split; [lia|].
    split; [|split; [|split]].
    + destruct Hlo_in as [->|(e & He & <-)].
      * destruct Hlo1 as [->| ->]; [now left|]. right. exists (m, o, s).
        split; [apply list_elem_of_here | reflexivity].
      * right. exists e. split; [now apply list_elem_of_further | reflexivity].
    + destruct Hhi_in as [->|(e & He & <-)].
      * destruct Hhi1 as [->| ->]; [now left|]. right. exists (m, o, s).
        split; [apply list_elem_of_here | reflexivity].
      * right. exists e. split; [now apply list_elem_of_further | reflexivity].
    + intros e He. apply elem_of_cons in He as [->|He].
      * unfold ev_offset, ev_size; simpl. lia.
      * apply Hmin, He.
    + intros e He. apply elem_of_cons in He as [->|He].
      * unfold ev_offset, ev_size; simpl. lia.
      * apply Hmax, He.
Qed.

(** The bounds of a non-empty list are integers, attained by events of
    the list and extreme over it. *)
Lemma calc_bounds_nonempty events :
  events <> [] ->
  exists lo hi,
    calc_bounds events = (Int lo, Int hi)
    /\ (exists e, e ∈ events /\ ev_offset e = lo)
    /\ (forall e, e ∈ events -> lo <= ev_offset e)
    /\ (exists e, e ∈ events /\ ev_offset e + ev_size e = hi)
    /\ (forall e, e ∈ events -> ev_offset e + ev_size e <= hi).
Proof.
  destruct events as [|[[m o] s] events]; [congruence|]. intros _.
  unfold calc_bounds. cbn [calc_bounds_loop number_lt].
  destruct (calc_bounds_loop_int events o (o + s))
    as (lo & hi & Heq & Hlo & Hhi & Hlo_in & Hhi_in & Hmin & Hmax).
  exists lo, hi. split; [exact Heq|]. split; [|split; [|split]].
  - destruct Hlo_in as [->|(e & He & <-)].
    + exists (m, o, s). split; [apply list_elem_of_here | reflexivity].
    + exists e. split; [now apply list_elem_of_further | reflexivity].
  - intros e He. apply elem_of_cons in He as [->|He].
    + unfold ev_offset; simpl. lia.
    + apply Hmin, He.
  - destruct Hhi_in as [->|(e & He & <-)].
    + exists (m, o, s). split; [apply list_elem_of_here | reflexivity].
    + exists e. split; [now apply list_elem_of_further | reflexivity].
  - intros e He. apply elem_of_cons in He as [->|He].
    + unfold ev_offset, ev_size; simpl. lia.
    + apply Hmax, He.
Qed.

End Bounds.

(** C7. For a non-empty event list [calc_bounds] returns the minimum of
    the offsets and the maximum of [offset + size] over the events. *)
Theorem calc_bounds_min_max (events : list event) :
  events <> [] ->
  exists lo hi,
    calc_bounds events = (Int lo, Int hi)
    /\ (exists e, e ∈ events /\ ev_offset e = lo)
    /\ (forall e, e ∈ events -> lo <= ev_offset e)
    /\ (exists e, e ∈ events /\ ev_offset e + ev_size e = hi)
    /\ (forall e, e ∈ events -> ev_offset e + ev_size e <= hi).
Proof. apply calc_bounds_nonempty. Qed.

(** The events [(+,0,10), (+,20,5)] have bounds [0] and [25]. *)
Lemma calc_bounds_min_max_witness :
  calc_bounds [("+"%string, 0, 10); ("+"%string, 20, 5)] = (Int 0, Int 25)
  /\ exists lo hi,
       calc_bounds [("+"%string, 0, 10); ("+"%string, 20, 5)] = (Int lo, Int hi)
       /\ (exists e, e ∈ [("+"%string, 0, 10); ("+"%string, 20, 5)] /\ ev_offset e = lo)
       /\ (forall e, e ∈ [("+"%string, 0, 10); ("+"%string, 20, 5)] -> lo <= ev_offset e)
       /\ (exists e, e ∈ [("+"%string, 0, 10); ("+"%string, 20, 5)]
                     /\ ev_offset e + ev_size e = hi)
       /\ (forall e, e ∈ [("+"%string, 0, 10); ("+"%string, 20, 5)]
                     -> ev_offset e + ev_size e <= hi).
Proof.
  split; [reflexivity|].
  apply (calc_bounds_min_max [("+"%string, 0, 10); ("+"%string, 20, 5)]).
  discriminate.
Defined.

(** ** Grid layout *)

Section Layout.

Lemma ceil_sqrt_spec n :
  0 <= n ->
  exists c,
    ceil_sqrt n = Returned c
    /\ 0 <= c /\ n <= c * c
    /\ forall c', 0 <= c' -> n <= c' * c' -> c <= c'.
Proof.
  intros Hn. unfold ceil_sqrt.
  destruct (Z.ltb_spec n 0) as [|_]; [lia|].
  pose proof (Z.sqrt_spec n Hn) as [Hlo Hhi].
  pose proof (Z.sqrt_nonneg n) as Hr.
  destruct (Z.eqb_spec (Z.sqrt n * Z.sqrt n) n) as [Heq|Hne]; eexists; (split; [reflexivity|]).
  - repeat split; [lia | lia |]. intros c' Hc' Hle. nia.
  - repeat split; [lia | nia |]. intros c' Hc' Hle. nia.
Qed.

Lemma ceil_sqrt_negative n : n < 0 -> ceil_sqrt n = Raised TypeError.
Proof. intros Hn. unfold ceil_sqrt. now destruct (Z.ltb_spec n 0); [|lia]. Qed.

Lemma ceil_div_spec n d :
  0 < d -> (ceil_div n d - 1) * d < n <= ceil_div n d * d.
Proof.
  intros Hd. unfold ceil_div.
  pose proof (Z.mul_div_le (- n) d Hd). pose proof (Z.mul_succ_div_gt (- n) d Hd). nia.
Qed.

Lemma grid_layout_spec n :
  0 <= n ->
  exists l c,
    grid_layout n = Returned l
    /\ (0 <= c /\ n <= c * c /\ forall c', 0 <= c' -> n <= c' * c' -> c <= c')
    /\ width l = Z.max 32 c
    /\ (height l - 1) * width l < n <= height l * width l
    /\ padding_pixels l = width l * height l - n
    /\ cell_size l = Z.max 1 (Z.min 10 (2048 / width l)).
Proof.
  intros Hn. destruct (ceil_sqrt_spec n Hn) as (c & Hc & Hc0 & Hcn & Hmin).
  unfold grid_layout. rewrite Hc. cbn.
  eexists. exists c. split; [reflexivity|]. cbn.
  split; [now repeat split|]. split; [reflexivity|].
  split; [apply ceil_div_spec; lia|]. now split.
Qed.

(** The arithmetic of a layout the later proofs rely on. *)
Lemma grid_layout_shape n l :
  grid_layout n = Returned l ->
  0 <= n /\ 32 <= width l /\ 0 <= height l
  /\ 0 <= padding_pixels l < width l
  /\ height l * width l = n + padding_pixels l.
Proof.
  intros Hl. destruct (Z.lt_ge_cases n 0) as [Hneg|Hn].
  { unfold grid_layout in Hl. rewrite (ceil_sqrt_negative n Hneg) in Hl. discriminate. }
  destruct (grid_layout_spec n Hn) as (l' & c & Hl' & _ & Hw & Hh & Hp & _).
  rewrite Hl in Hl'. injection Hl' as <-.
  assert (32 <= width l) by lia. repeat split; try lia; nia.
Qed.

End Layout.

(** ** The layout in double precision *)

Section FloatLayout.

Import Float.

Lemma round_half_even_bounds num den :
  0 < den -> num / den <= round_half_even num den <= num / den + 1.
Proof.
  intros Hden. unfold round_half_even.
  destruct (2 * (num mod den) ?= den); [destruct (Z.even _)|..]; lia.
Qed.

Lemma round_half_even_exact num den :
  0 < den -> num mod den = 0 -> round_half_even num den = num / den.
Proof.
  intros Hden Hmod. unfold round_half_even. rewrite Hmod.
  destruct (Z.compare_spec (2 * 0) den); lia.
Qed.

(** An integer ceiling, from its two bounds. *)
Lemma ceil_unique M P c : 0 < P -> (c - 1) * P < M <= c * P -> - ((- M) / P) = c.
Proof.
  intros HP [Hlo Hhi].
  pose proof (Z.div_mod (- M) P ltac:(lia)) as Hdm.
  pose proof (Z.mod_pos_bound (- M) P HP) as Hmod. nia.
Qed.

Lemma log2_below n b : 0 <= n < 2 ^ b -> 0 < b -> Z.log2 n < b.
Proof.
  intros [Hn Hlt] Hb. destruct (Z.eq_dec n 0) as [->|Hne]; [exact Hb|].
  apply Z.log2_lt_pow2; lia.
Qed.

(** An integer below [2 ^ 53] is a double. *)
Lemma of_int_small n : 0 <= n < 2 ^ 53 -> of_int n = Returned (Make n 0).
Proof.
  intros Hn. unfold of_int. rewrite Z.abs_eq by lia.
  pose proof (log2_below n 53 Hn ltac:(lia)) as Hlog.
  rewrite Z.max_l by lia. change (2 ^ 0) with 1.
  rewrite round_half_even_exact by (lia || apply Z.mod_1_r).
  rewrite Z.div_1_r.
  replace (Z.sgn n * n) with n by (destruct n; simpl; lia).
  unfold overflows. cbn [mant expo]. change (2 ^ 0) with 1.
  destruct (Z.leb_spec (2 ^ 1024) (Z.abs n * 1)) as [Hbig|_]; [|reflexivity].
  exfalso. assert (2 ^ 53 < 2 ^ 1024) by (vm_compute; reflexivity). lia.
Qed.

(** Below [2 ^ 52] the ceiling of the rounded root is the ceiling of the
    root, whichever neighbour the rounding picks. *)
Lemma ceil_scaled_root n s M :
  0 <= n < 2 ^ 52 -> 27 <= s ->
  Z.sqrt (n * 4 ^ s) <= M <= Z.sqrt (n * 4 ^ s) + 1 ->
  (Z.sqrt (n * 4 ^ s) * Z.sqrt (n * 4 ^ s) = n * 4 ^ s -> M = Z.sqrt (n * 4 ^ s)) ->
  Returned (- ((- M) / 2 ^ s)) = ceil_sqrt n.
Proof.
  intros Hn Hs HM Hexact. unfold ceil_sqrt.
  destruct (Z.ltb_spec n 0) as [|_]; [lia|]. cbv zeta. f_equal.
  set (P := 2 ^ s) in *.
  assert (4 ^ s = P * P) as H4.
  { unfold P. change 4 with (2 ^ 2). rewrite <- Z.pow_mul_r by lia.
    rewrite <- Z.pow_add_r by lia. f_equal. lia. }
  rewrite H4 in *.
  assert (2 ^ 27 <= P) as HP by (apply Z.pow_le_mono_r; lia).
  change (2 ^ 27) with 134217728 in HP. change (2 ^ 52) with 4503599627370496 in Hn.
  set (k := Z.sqrt n).
  pose proof (Z.sqrt_spec n ltac:(lia)) as [Hk1 Hk2]. fold k in Hk1, Hk2.
  pose proof (Z.sqrt_nonneg n) as Hk0. fold k in Hk0.
  assert (k < 67108864) as Hk by nia.
  set (N := n * (P * P)) in *. set (F := Z.sqrt N) in *.
  assert (0 <= N) as HN by (unfold N; nia).
  pose proof (Z.sqrt_spec N HN) as [HF1 HF2]. fold F in HF1, HF2.
  pose proof (Z.sqrt_nonneg N) as HF0. fold F in HF0.
  unfold Z.succ in *.
  apply ceil_unique; [lia|].
  destruct (Z.eqb_spec (k * k) n) as [Heq|Hne].
  - (* a perfect square: the root is the double [k] *)
    assert (F = k * P) as HF.
    { assert (N = (k * P) * (k * P)) as HNk by (unfold N; rewrite <- Heq; ring).
      assert (0 <= k * P) by nia.
      destruct (Z.lt_trichotomy F (k * P)) as [Hlt|[Heq'|Hgt]]; [|exact Heq'|].
      - exfalso. assert (F + 1 <= k * P) by lia.
        assert ((F + 1) * (F + 1) <= (k * P) * (k * P)) by (apply Z.mul_le_mono_nonneg; lia).
        lia.
      - exfalso. assert (k * P + 1 <= F) by lia.
        assert ((k * P + 1) * (k * P + 1) <= F * F) by (apply Z.mul_le_mono_nonneg; lia).
        nia. }
    assert (M = F) as -> by (apply Hexact; rewrite HF; unfold N; rewrite <- Heq; ring).
    rewrite HF. nia.
  - (* otherwise the rounded root stays strictly between [k] and [k + 1] *)
    assert (k * k + 1 <= n) as Hn1 by lia.
    assert (n + 1 <= (k + 1) * (k + 1)) as Hn2 by lia.
    assert (k * P + 1 <= F) as HFlo.
    { destruct (Z.le_gt_cases (k * P + 1) F) as [|Hgt]; [assumption|exfalso].
      assert (F + 1 <= k * P + 1) by lia.
      assert ((F + 1) * (F + 1) <= (k * P + 1) * (k * P + 1))
        by (apply Z.mul_le_mono_nonneg; lia).
      assert ((k * P + 1) * (k * P + 1) <= N); [|lia].
      unfold N. assert (2 * k + 1 <= P) by lia.
      assert ((k * k + 1) * (P * P) <= n * (P * P)) by (apply Z.mul_le_mono_nonneg_r; nia).
      assert ((2 * k + 1) * P <= P * P) by (apply Z.mul_le_mono_nonneg_r; lia).
      nia. }
    assert (F + 1 <= (k + 1) * P) as HFhi.
    { destruct (Z.le_gt_cases (F + 1) ((k + 1) * P)) as [|Hgt]; [assumption|exfalso].
      assert ((k + 1) * P <= F) by lia.
      assert (((k + 1) * P) * ((k + 1) * P) <= F * F)
        by (apply Z.mul_le_mono_nonneg; nia).
      assert ((n + 1) * (P * P) <= ((k + 1) * (k + 1)) * (P * P))
        by (apply Z.mul_le_mono_nonneg_r; nia).
      unfold N in *. nia. }
    lia.
Qed.

Lemma ceil_sqrt_float n :
  0 <= n < 2 ^ 52 -> Returned (ceil (sqrt (Make n 0))) = ceil_sqrt n.
Proof.
  intros Hn. unfold sqrt, sqrt_int. cbn [mant expo]. change (Z.odd 0) with false.
  cbv iota beta. cbn [mant expo].
  pose proof (log2_below n 52 Hn ltac:(lia)) as Hlog.
  pose proof (Z.log2_nonneg n) as Hlog0.
  assert (0 <= Z.log2 n / 2 <= 25) as Hhalf.
  { split; [apply Z.div_pos; lia|].
    assert (Z.log2 n / 2 < 26) by (apply Z.div_lt_upper_bound; lia). lia. }
  set (s := 52 - Z.log2 n / 2).
  replace (Z.log2 n / 2 - 52) with (- s) by (unfold s; lia).
  assert (27 <= s <= 52) as Hs by (unfold s; lia).
  rewrite Z.opp_involutive, (Z.max_r 0 s), (Z.max_l 0 (- s)) by lia.
  change (4 ^ 0) with 1. rewrite Z.mul_1_r, Z.div_1_r. change (0 / 2) with 0.
  rewrite Z.add_0_r.
  unfold ceil. cbn [mant expo].
  destruct (Z.leb_spec 0 (- s)) as [|_]; [lia|]. rewrite Z.opp_involutive.
  set (N := n * 4 ^ s). set (F := Z.sqrt N).
  assert (0 <= N) as HN by (unfold N; apply Z.mul_nonneg_nonneg; [lia|apply Z.pow_nonneg; lia]).
  pose proof (Z.sqrt_nonneg N) as HF0. fold F in HF0.
  apply ceil_scaled_root; [exact Hn | lia | |]; fold N; fold F.
  - destruct (4 * N ?= (2 * F + 1) ^ 2); [destruct (Z.odd F)|..]; lia.
  - intros Hsq. destruct (Z.compare_spec (4 * N) ((2 * F + 1) ^ 2)) as [Heq|Hlt|Hgt];
      [exfalso; nia | reflexivity | exfalso; nia].
Qed.

(** The rounded quotient of two integers with a dividend below
    [2 ^ 52]: its last place is below [1 / b]. *)
Lemma div_pos_small a b :
  0 < a -> 0 < b -> Z.log2 a <= 51 ->
  exists s M,
    div_pos a b = Make M (- s)
    /\ 0 < s /\ b < 2 ^ s
    /\ a * 2 ^ s / b <= M <= a * 2 ^ s / b + 1
    /\ ((a * 2 ^ s) mod b = 0 -> M = a * 2 ^ s / b).
Proof.
  intros Ha Hb Hlog. unfold div_pos.
  set (e0 := Z.log2 a - Z.log2 b - 53).
  set (e := if 2 ^ 53 <=? _ then e0 + 1 else e0).
  assert (e0 <= e <= e0 + 1) as He by (unfold e; destruct (_ <=? _); lia).
  pose proof (Z.log2_nonneg b) as Hlb.
  assert (e0 = Z.log2 a - Z.log2 b - 53) as He0 by reflexivity.
  clearbody e e0.
  exists (- e). eexists. rewrite Z.opp_involutive. split; [reflexivity|].
  cbn [fst snd]. rewrite (Z.max_r 0 (- e)), (Z.max_l 0 e) by lia.
  change (2 ^ 0) with 1. rewrite Z.mul_1_r.
  split; [lia|]. split.
  - pose proof (Z.log2_spec b Hb) as [_ Hhi]. unfold Z.succ in Hhi.
    assert (2 ^ (Z.log2 b + 1) <= 2 ^ (- e)) by (apply Z.pow_le_mono_r; lia).
    lia.
  - split; [now apply round_half_even_bounds | now apply round_half_even_exact].
Qed.

Lemma int_true_divide_small a b :
  0 < a -> 0 < b -> Z.log2 a <= 51 ->
  exists s M,
    int_true_divide a b = Returned (Make M (- s))
    /\ 0 < s /\ b < 2 ^ s
    /\ a * 2 ^ s / b <= M <= a * 2 ^ s / b + 1
    /\ ((a * 2 ^ s) mod b = 0 -> M = a * 2 ^ s / b).
Proof.
  intros Ha Hb Hlog.
  destruct (div_pos_small a b Ha Hb Hlog) as (s & M & Hdiv & Hs & HP & HM & Hexact).
  exists s, M. split; [|now repeat split].
  unfold int_true_divide. destruct (Z.eqb_spec a 0) as [|_]; [lia|].
  rewrite Hdiv. unfold overflows. cbn [mant expo].
  destruct (Z.leb_spec 0 (- s)) as [|_]; [lia|]. reflexivity.
Qed.

(** Line 67 below [2 ^ 52]. *)
Lemma ceil_true_divide n w :
  0 <= n < 2 ^ 52 -> 32 <= w ->
  exists q, int_true_divide n w = Returned q /\ ceil q = ceil_div n w.
Proof.
  intros Hn Hw. destruct (Z.eq_dec n 0) as [->|Hne].
  { exists (Make 0 0). split; reflexivity. }
  pose proof (log2_below n 52 Hn ltac:(lia)) as Hlog.
  assert (5 <= Z.log2 w) as Hlw by (apply Z.log2_le_pow2; [lia|]; change (2 ^ 5) with 32; lia).
  destruct (int_true_divide_small n w) as (s & M & Hdiv & Hs & HP & HM & Hexact); [lia..|].
  exists (Make M (- s)). split; [exact Hdiv|].
  unfold ceil. cbn [mant expo]. destruct (Z.leb_spec 0 (- s)) as [|_]; [lia|].
  rewrite Z.opp_involutive. set (P := 2 ^ s) in *.
  set (c := ceil_div n w).
  assert ((c - 1) * w < n <= c * w) as [Hc1 Hc2].
  { unfold c, ceil_div.
    pose proof (Z.mul_div_le (- n) w ltac:(lia)).
    pose proof (Z.mul_succ_div_gt (- n) w ltac:(lia)). nia. }
  apply ceil_unique; [lia|]. set (F := n * P / w) in *. split.
  - (* a remainder of at least one, scaled, is worth more than one place *)
    assert ((c - 1) * P + 1 <= F); [|lia].
    apply Z.div_le_lower_bound; [lia|].
    assert (1 * P <= (n - (c - 1) * w) * P) by (apply Z.mul_le_mono_nonneg_r; lia).
    nia.
  - destruct (Z.eq_dec n (c * w)) as [Heq|Hneq].
    + assert (n * P = c * P * w) as HnP by (rewrite Heq; ring).
      assert (F = c * P) as HF by (unfold F; rewrite HnP; apply Z.div_mul; lia).
      rewrite Hexact; [lia|]. rewrite HnP. apply Z.mod_mul. lia.
    + assert (F < c * P); [|lia].
      apply Z.div_lt_upper_bound; [lia|].
      assert (n * P < c * w * P) by (apply Z.mul_lt_mono_pos_r; lia). lia.
Qed.

(** Line 72 for a width that is a double. *)
Lemma trunc_true_divide w :
  32 <= w -> exists c, int_true_divide 2048 w = Returned c /\ trunc c = 2048 / w.
Proof.
  intros Hw.
  assert (5 <= Z.log2 w) as Hlw by (apply Z.log2_le_pow2; [lia|]; change (2 ^ 5) with 32; lia).
  destruct (int_true_divide_small 2048 w) as (s & M & Hdiv & Hs & HP & HM & _);
    [lia | lia | change (Z.log2 2048) with 11; lia |].
  exists (Make M (- s)). split; [exact Hdiv|].
  unfold trunc. cbn [mant expo]. destruct (Z.leb_spec 0 (- s)) as [|_]; [lia|].
  rewrite Z.opp_involutive. set (P := 2 ^ s) in *. set (F := 2048 * P / w) in *.
  set (k := 2048 / w).
  pose proof (Z.mul_div_le 2048 w ltac:(lia)) as Hk1. fold k in Hk1.
  pose proof (Z.mul_succ_div_gt 2048 w ltac:(lia)) as Hk2. fold k in Hk2.
  unfold Z.succ in Hk2.
  assert (0 <= k) as Hk0 by (apply Z.div_pos; lia).
  assert (k * P <= F) as HFlo.
  { apply Z.div_le_lower_bound; [lia|].
    assert (w * k * P <= 2048 * P) by (apply Z.mul_le_mono_nonneg_r; lia). lia. }
  assert (F + 2 <= (k + 1) * P) as HFhi.
  { assert (F < (k + 1) * P - 1); [|lia].
    apply Z.div_lt_upper_bound; [lia|].
    assert (1 * P <= (w * (k + 1) - 2048) * P) by (apply Z.mul_le_mono_nonneg_r; lia).
    nia. }
  assert (0 <= M) by nia.
  rewrite Z.quot_div_nonneg by lia.
  symmetry. apply Z.div_unique with (r := M - k * P); lia.
Qed.

(** Up to [2 ^ 52] the double-precision layout is the exact one. *)
Lemma grid_layout_float_exact n :
  0 <= n <= 2 ^ 52 -> grid_layout_float n = grid_layout n.
Proof.
  intros Hle. destruct (Z.eq_dec n (2 ^ 52)) as [->|Hne]; [vm_compute; reflexivity|].
  assert (0 <= n < 2 ^ 52) as Hn by lia. clear Hle Hne.
  unfold grid_layout_float, grid_layout.
  rewrite of_int_small by (assert (2 ^ 52 < 2 ^ 53) by (vm_compute; reflexivity); lia).
  cbn [mbind outcome_bind]. destruct (Z.ltb_spec n 0) as [|_]; [lia|].
  pose proof (ceil_sqrt_float n Hn) as Hroot.
  destruct (ceil_sqrt n) as [root|] eqn:Hc; [|discriminate].
  injection Hroot as ->. cbn [mbind outcome_bind].
  set (w := Z.max 32 root).
  destruct (ceil_true_divide n w Hn ltac:(lia)) as (q & Hq & Hceil).
  destruct (trunc_true_divide w ltac:(lia)) as (c & Hc' & Htrunc).
  rewrite Hq. cbn [mbind outcome_bind]. rewrite Hc'. cbn [mbind outcome_bind].
  rewrite Hceil, Htrunc. reflexivity.
Qed.

End FloatLayout.

(** C8. For every size [0 <= n <= 2 ^ 52] the layout computed in double
    precision has [width = max(32, ceil(sqrt(n)))],
    [height = ceil(n / width)] and [padding = width * height - n], and
    [width * height >= n]. *)
Theorem grid_layout_formula (allocations_size : Z) :
  0 <= allocations_size <= 2 ^ 52 ->
  exists l c,
    grid_layout_float allocations_size = Returned l
    /\ (0 <= c /\ allocations_size <= c * c
        /\ forall c', 0 <= c' -> allocations_size <= c' * c' -> c <= c')
    /\ width l = Z.max 32 c
    /\ (height l - 1) * width l < allocations_size <= height l * width l
    /\ padding_pixels l = width l * height l - allocations_size
    /\ allocations_size <= width l * height l.
Proof.
  intros Hn. rewrite (grid_layout_float_exact _ Hn).
  destruct (grid_layout_spec allocations_size) as (l & c & Hl & Hc & Hw & Hh & Hp & _);
    [lia|].
  exists l, c. repeat split; try tauto; lia.
Qed.

(** A size of 1000 gives a 32 by 32 grid with 24 padding cells. *)
Lemma grid_layout_formula_witness :
  grid_layout_float 1000 = Returned (Layout 32 32 24 10)
  /\ exists l c,
       grid_layout_float 1000 = Returned l
       /\ (0 <= c /\ 1000 <= c * c /\ forall c', 0 <= c' -> 1000 <= c' * c' -> c <= c')
       /\ width l = Z.max 32 c
       /\ (height l - 1) * width l < 1000 <= height l * width l
       /\ padding_pixels l = width l * height l - 1000
       /\ 1000 <= width l * height l.
Proof.
  split; [vm_compute; reflexivity|]. apply (grid_layout_formula 1000).
  vm_compute. split; discriminate.
Defined.

(** The formula does not hold for every size.  At [2 ^ 52 + 1] the
    root is rounded down to the double [2 ^ 26]: the width is below the
    root, [2 ^ 26] is not the least [c] with [n <= c * c], and the grid is
    taller than wide.  At [2 ^ 54 + 1] the size is rounded to the double
    [2 ^ 54], whose root is [2 ^ 27], and the quotient by this width is
    rounded to [2 ^ 27] as well: the grid is one cell short of the size
    and the padding is [-1]. *)
Lemma grid_layout_formula_fails_large :
  (0 <= 2 ^ 52 + 1
   /\ grid_layout_float (2 ^ 52 + 1)
      = Returned (Layout (2 ^ 26) (2 ^ 26 + 1) (2 ^ 26 - 1) 1)
   /\ 2 ^ 26 * 2 ^ 26 < 2 ^ 52 + 1
   /\ Z.max 32 (2 ^ 26 + 1) <> 2 ^ 26)
  /\ (0 <= 2 ^ 54 + 1
      /\ grid_layout_float (2 ^ 54 + 1) = Returned (Layout (2 ^ 27) (2 ^ 27) (-1) 1)
      /\ 2 ^ 27 * 2 ^ 27 < 2 ^ 54 + 1).
Proof.
  split.
  - split; [vm_compute; discriminate|]. split; [vm_compute; reflexivity|].
    split; [vm_compute; reflexivity | vm_compute; discriminate].
  - split; [vm_compute; discriminate|]. split; vm_compute; reflexivity.
Qed.

(** Sizes out of the range of doubles raise [OverflowError], whatever
    their sign; smaller negative sizes raise [TypeError]. *)
Lemma grid_layout_float_raises :
  grid_layout_float (10 ^ 400) = Raised OverflowError
  /\ grid_layout_float (- 10 ^ 400) = Raised OverflowError
  /\ grid_layout_float (2 ^ 1024 - 2 ^ 970) = Raised OverflowError
  /\ (exists l, grid_layout_float (2 ^ 1024 - 2 ^ 970 - 1) = Returned l)
  /\ grid_layout_float (-5) = Raised TypeError.
Proof.
  repeat split; try (vm_compute; reflexivity). eexists. vm_compute. reflexivity.
Qed.

(** ** The occupancy counters *)

Section Counters.

Implicit Types (allocated : list Z) (e : event) (events : list event).

Lemma length_slice_iadd allocated start stop d :
  length (slice_iadd allocated start stop d) = length allocated.
Proof. apply length_imap. Qed.

Lemma lookup_slice_iadd allocated start stop d j :
  slice_iadd allocated start stop d !! j
  = (fun c => if in_slice start stop (Z.of_nat (length allocated)) j then c + d else c)
      <$> allocated !! j.
Proof. unfold slice_iadd. now rewrite list_lookup_imap. Qed.

Lemma length_apply_event lo allocated e :
  length (apply_event lo allocated e) = length allocated.
Proof. destruct e as [[m o] s]. apply length_slice_iadd. Qed.

Lemma length_apply_events lo events :
  forall allocated, length (apply_events lo allocated events) = length allocated.
Proof.
  induction events as [|e events IH]; intros allocated; [reflexivity|].
  unfold apply_events in *. simpl. now rewrite IH, length_apply_event.
Qed.

(** Adding [d] then [- d] over the same slice is the identity. *)
Lemma slice_iadd_undo allocated start stop d :
  slice_iadd (slice_iadd allocated start stop d) start stop (- d) = allocated.
Proof.
  apply list_eq. intros j.
  rewrite !lookup_slice_iadd, length_slice_iadd.
  destruct (allocated !! j) as [c|]; [|reflexivity]. simpl.
  destruct (in_slice start stop (Z.of_nat (length allocated)) j); f_equal; lia.
Qed.

(** Positions outside the slice keep their counter. *)
Lemma lookup_apply_event_outside lo allocated e j :
  in_slice (ev_offset e - lo) (ev_offset e + ev_size e - lo)
    (Z.of_nat (length allocated)) j = false ->
  apply_event lo allocated e !! j = allocated !! j.
Proof.
  destruct e as [[m o] s]. unfold ev_offset, ev_size. simpl. intros Hout.
  rewrite lookup_slice_iadd, Hout. now destruct (allocated !! j).
Qed.

(** A slice with [0 <= start] and [0 <= stop <= n] stays below [n]. *)
Lemma in_slice_below start stop len n j :
  0 <= stop <= n -> in_slice start stop len j = true -> Z.of_nat j < n.
Proof.
  unfold in_slice, slice_index. intros Hstop Hin.
  apply andb_prop in Hin as [_ Hj]. apply Z.ltb_lt in Hj.
  destruct (Z.ltb_spec stop 0); lia.
Qed.

(** With sizes that are not negative, the index range of every event lies
    in [0, allocations_size) and an update changes no counter outside it. *)
Lemma event_range_nonneg events lo hi e :
  Forall (fun e' => 0 <= ev_size e') events ->
  calc_bounds events = (Int lo, Int hi) ->
  e ∈ events ->
  0 <= ev_offset e - lo <= ev_offset e + ev_size e - lo
  /\ ev_offset e + ev_size e - lo <= hi - lo.
Proof.
  intros Hsize Hb He. rewrite Forall_forall in Hsize.
  assert (events <> []) as Hne by (intros ->; inversion He).
  destruct (calc_bounds_nonempty events Hne) as (lo' & hi' & Hb' & _ & Hmin & _ & Hmax).
  rewrite Hb in Hb'. injection Hb' as <- <-.
  specialize (Hsize e He). specialize (Hmin e He). specialize (Hmax e He). lia.
Qed.

Lemma apply_event_changes_inside events lo hi e allocated j :
  Forall (fun e' => 0 <= ev_size e') events ->
  calc_bounds events = (Int lo, Int hi) ->
  e ∈ events ->
  apply_event lo allocated e !! j <> allocated !! j ->
  0 <= Z.of_nat j < hi - lo.
Proof.
  intros Hsize Hb He Hch.
  destruct (event_range_nonneg events lo hi e Hsize Hb He) as [Hstart Hstop].
  split; [lia|].
  destruct (in_slice (ev_offset e - lo) (ev_offset e + ev_size e - lo)
              (Z.of_nat (length allocated)) j) eqn:Hin.
  - eapply in_slice_below; [|exact Hin]. lia.
  - now apply lookup_apply_event_outside in Hin.
Qed.

End Counters.

(** C9. Applying [(+, o, s)] and then [(-, o, s)] gives back the counters
    as they were, and in between each unit of the slice was one higher. *)
Theorem alloc_then_free_restores (min_offset o s : Z) (allocated : list Z) :
  apply_event min_offset
    (apply_event min_offset allocated ("+"%string, o, s)) ("-"%string, o, s)
  = allocated
  /\ forall j c,
       allocated !! j = Some c ->
       apply_event min_offset allocated ("+"%string, o, s) !! j
       = Some (if in_slice (o - min_offset) (o + s - min_offset)
                    (Z.of_nat (length allocated)) j
               then c + 1 else c).
Proof.
  split.
  - unfold apply_event. simpl. apply (slice_iadd_undo allocated _ _ 1).
  - intros j c Hc. unfold apply_event. simpl.
    now rewrite lookup_slice_iadd, Hc.
Qed.

(** C5, amended. When no event has a negative size, the index range of
    every event satisfies [0 <= start <= stop <= allocations_size], and
    applying the event changes no counter at an index outside
    [0, allocations_size). *)
Theorem event_range_within_bounds
    (events : list event) (lo hi : Z) (e : event) (allocated : list Z) (j : nat) :
  Forall (fun e' => 0 <= ev_size e') events ->
  calc_bounds events = (Int lo, Int hi) ->
  e ∈ events ->
  (0 <= ev_offset e - lo <= ev_offset e + ev_size e - lo
   /\ ev_offset e + ev_size e - lo <= hi - lo)
  /\ (apply_event lo allocated e !! j <> allocated !! j -> 0 <= Z.of_nat j < hi - lo).
Proof.
  intros Hsize Hb He. split.
  - eapply event_range_nonneg; eassumption.
  - eapply apply_event_changes_inside; eassumption.
Qed.

Lemma event_range_within_bounds_witness :
  (0 <= ev_offset ("+"%string, 20, 5) - 0
        <= ev_offset ("+"%string, 20, 5) + ev_size ("+"%string, 20, 5) - 0
   /\ ev_offset ("+"%string, 20, 5) + ev_size ("+"%string, 20, 5) - 0 <= 25 - 0)
  /\ (apply_event 0 (replicate 32 0) ("+"%string, 20, 5) !! 22%nat
       <> replicate 32 0 !! 22%nat
      -> 0 <= Z.of_nat 22 < 25 - 0).
Proof.
  apply (event_range_within_bounds
           [("+"%string, 0, 10); ("+"%string, 20, 5)] 0 25 ("+"%string, 20, 5)).
  - repeat constructor; vm_compute; discriminate.
  - reflexivity.
  - apply list_elem_of_further, list_elem_of_here.
Defined.

(** C5 as stated fails: the log [+ 0 10], [+ 5 -20] has bounds 0 and 10,
    so [allocations_size = 10] on a grid of 32 cells; the second event
    has the slice [5:-15], which numpy reads as [5:17], and its update
    raises the counter of cell 12. *)
Lemma event_range_escapes_bounds :
  parse_events ("+ 0 10" +:+ String newline "+ 5 -20")
  = Returned [("+"%string, 0, 10); ("+"%string, 5, -20)]
  /\ calc_bounds [("+"%string, 0, 10); ("+"%string, 5, -20)] = (Int 0, Int 10)
  /\ grid_layout (10 - 0) = Returned (Layout 32 1 22 10)
  /\ apply_events 0 (zeros (Layout 32 1 22 10)) [("+"%string, 0, 10)] !! 12%nat = Some 0
  /\ apply_events 0 (zeros (Layout 32 1 22 10))
       [("+"%string, 0, 10); ("+"%string, 5, -20)] !! 12%nat = Some 1
  /\ ~ (Z.of_nat 12 < 10 - 0).
Proof. repeat split; try reflexivity. vm_compute. discriminate. Qed.

(** ** The replay loop *)

Section Replay.

Implicit Types (events : list event) (allocated : list Z) (l : layout).

Lemma length_replay_loop l lo n events :
  forall idx allocated,
    length (replay_loop l lo n idx events allocated) = length events.
Proof.
  induction events as [|e events IH]; intros idx allocated; [reflexivity|].
  simpl. now rewrite IH.
Qed.

(** Frame [k] renders event [k] on the counters left by the first
    [k + 1] events. *)
Lemma lookup_replay_loop l lo n events :
  forall idx allocated k,
    replay_loop l lo n idx events allocated !! k
    = (fun e => render_frame l n (idx + k) e
                  (apply_events lo allocated (take (S k) events)))
        <$> events !! k.
Proof.
  induction events as [|e events IH]; intros idx allocated k; [reflexivity|].
  destruct k as [|k].
  - simpl. rewrite Nat.add_0_r. reflexivity.
  - change (replay_loop l lo n idx (e :: events) allocated !! S k)
      with (replay_loop l lo n (S idx) events (apply_event lo allocated e) !! k).
    rewrite IH. replace (S idx + k)%nat with (idx + S k)%nat by lia. reflexivity.
Qed.

(** The run of a non-empty event list whose bounds span a size that is
    not negative. *)
Lemma replay_iterate_frames contents events lo hi :
  parse_events contents = Returned events ->
  events <> [] ->
  calc_bounds events = (Int lo, Int hi) ->
  lo <= hi ->
  exists l,
    grid_layout (hi - lo) = Returned l
    /\ replay_iterate contents
       = Returned (replay_loop l lo (hi - lo) 0 events (zeros l)).
Proof.
  intros Hp Hne Hb Hle.
  destruct (grid_layout_spec (hi - lo)) as (l & _ & Hl & _); [lia|].
  exists l. split; [exact Hl|].
  unfold replay_iterate. rewrite Hp. cbn.
  destruct events as [|e events]; [congruence|]. rewrite Hb, Hl. reflexivity.
Qed.

(** A span that is negative stops the run before its first frame. *)
Lemma replay_iterate_negative contents events lo hi :
  parse_events contents = Returned events ->
  events <> [] ->
  calc_bounds events = (Int lo, Int hi) ->
  hi < lo ->
  replay_iterate contents = Raised TypeError.
Proof.
  intros Hp Hne Hb Hlt. unfold replay_iterate. rewrite Hp. cbn.
  destruct events as [|e events]; [congruence|]. rewrite Hb.
  unfold grid_layout. rewrite ceil_sqrt_negative by lia. reflexivity.
Qed.

(** What a run that returned frames went through. *)
Lemma replay_iterate_inv contents events frames :
  parse_events contents = Returned events ->
  replay_iterate contents = Returned frames ->
  (events = [] /\ frames = [])
  \/ exists lo hi l,
       events <> []
       /\ calc_bounds events = (Int lo, Int hi)
       /\ grid_layout (hi - lo) = Returned l
       /\ frames = replay_loop l lo (hi - lo) 0 events (zeros l).
Proof.
  intros Hp. unfold replay_iterate. rewrite Hp. cbn.
  destruct events as [|e events]; [intros [= <-]; now left|].
  destruct (calc_bounds_nonempty (e :: events)) as (lo & hi & Hb & _); [discriminate|].
  rewrite Hb. destruct (grid_layout (hi - lo)) as [l|] eqn:Hl; [|discriminate].
  cbn. intros [= <-]. right. exists lo, hi, l. repeat split; [discriminate|..]; auto.
Qed.

(** Frame [k] of a run, with the bounds and layout it was made for. *)
Lemma replay_iterate_lookup contents events lo hi frames k fr :
  parse_events contents = Returned events ->
  calc_bounds events = (Int lo, Int hi) ->
  replay_iterate contents = Returned frames ->
  frames !! k = Some fr ->
  exists l e,
    grid_layout (hi - lo) = Returned l
    /\ events !! k = Some e
    /\ fr = render_frame l (hi - lo) k e (counters_at events lo l k).
Proof.
  intros Hp Hb Hr Hk.
  destruct (replay_iterate_inv _ _ _ Hp Hr)
    as [[_ ->]|(lo' & hi' & l & _ & Hb' & Hl & ->)]; [discriminate|].
  rewrite Hb in Hb'. injection Hb' as <- <-.
  rewrite lookup_replay_loop in Hk.
  destruct (events !! k) as [e|] eqn:He; [|discriminate]. injection Hk as <-.
  exists l, e. repeat split; auto.
Qed.

Lemma render_frame_layout l n k e allocated :
  image_layout (render_frame l n k e allocated) = l.
Proof. now destruct e as [[m o] s]. Qed.

Lemma render_frame_image l n k e allocated :
  image (render_frame l n k e allocated) = render_image allocated (padding_pixels l).
Proof. now destruct e as [[m o] s]. Qed.

Lemma render_frame_percent l n k e allocated :
  percent_free (render_frame l n k e allocated)
  = true_divide (mask_sum (is_free_mask allocated)) n.
Proof. now destruct e as [[m o] s]. Qed.

End Replay.

(** C6. The log [+ 0 -5] has one well-formed event line, and its run
    raises [TypeError] before the first frame: the bounds are 0 and -5,
    and the square root of the size -5 is a complex number that [ceil]
    rejects. *)
Theorem negative_span_yields_no_frame :
  parse_events "+ 0 -5" = Returned [("+"%string, 0, -5)]
  /\ calc_bounds [("+"%string, 0, -5)] = (Int 0, Int (-5))
  /\ replay_iterate "+ 0 -5" = Raised TypeError.
Proof. repeat split. Qed.

(** ** Frames *)

Section Frames.

Implicit Types (events : list event) (allocated : list Z) (l : layout).

(** One frame per event, in order, whenever the span is not negative
    (in the embedding, which leaves out the limits of memory); none for a
    log without events. *)
Lemma replay_iterate_frame_count contents events lo hi :
  parse_events contents = Returned events ->
  events <> [] ->
  calc_bounds events = (Int lo, Int hi) ->
  lo <= hi ->
  exists l frames,
    grid_layout (hi - lo) = Returned l
    /\ replay_iterate contents = Returned frames
    /\ length frames = length events
    /\ forall k e, events !! k = Some e ->
         frames !! k = Some (render_frame l (hi - lo) k e (counters_at events lo l k)).
Proof.
  intros Hp Hne Hb Hle.
  destruct (replay_iterate_frames _ _ _ _ Hp Hne Hb Hle) as (l & Hl & Hr).
  exists l. eexists. split; [exact Hl|]. split; [exact Hr|].
  split; [apply length_replay_loop|].
  intros k e He. now rewrite lookup_replay_loop, He.
Qed.

Lemma replay_iterate_empty contents :
  parse_events contents = Returned [] -> replay_iterate contents = Returned [].
Proof. intros Hp. unfold replay_iterate. now rewrite Hp. Qed.

Lemma lookup_render_image allocated p j c :
  allocated !! j = Some c ->
  render_image allocated p !! j
  = Some (if (c <? 0) || (c >? 1) then invalid_colour
          else if c =? 1 then free_colour
          else if negb (p =? 0)
                  && in_slice (- p) (Z.of_nat (length allocated))
                       (Z.of_nat (length allocated)) j
               then (background, background, background)
               else used_colour).
Proof.
  intros Hc. pose proof (lookup_lt_Some _ _ _ Hc) as Hj.
  unfold render_image, mask_assign, is_free_mask, invalid_mask.
  rewrite !lookup_zip_with, !list_lookup_fmap, Hc. cbn.
  destruct ((c <? 0) || (c >? 1)); [|destruct (c =? 1)].
  - destruct (p =? 0); [now rewrite lookup_replicate_2|].
    unfold fill_tail. rewrite list_lookup_imap, lookup_replicate_2 by exact Hj.
    reflexivity.
  - destruct (p =? 0); [now rewrite lookup_replicate_2|].
    unfold fill_tail. rewrite list_lookup_imap, lookup_replicate_2 by exact Hj.
    reflexivity.
  - destruct (p =? 0); [now rewrite lookup_replicate_2|].
    unfold fill_tail. rewrite list_lookup_imap, lookup_replicate_2 by exact Hj.
    cbn. now rewrite length_replicate.
Qed.

(** A position before the last [p] cells is not in the padding slice. *)
Lemma in_slice_padding p len j :
  0 < p -> Z.of_nat j < len - p -> in_slice (- p) len len j = false.
Proof.
  intros Hp Hj. unfold in_slice, slice_index.
  destruct (Z.ltb_spec (- p) 0); [|lia].
  apply andb_false_iff. left. apply Z.leb_gt. lia.
Qed.

Lemma length_zeros n l :
  grid_layout n = Returned l ->
  Z.of_nat (length (zeros l)) = n + padding_pixels l.
Proof.
  intros Hl. destruct (grid_layout_shape _ _ Hl) as (Hn & Hw & Hh & Hp & Heq).
  unfold zeros. rewrite length_replicate, Z2Nat.id by nia. exact Heq.
Qed.

Lemma length_counters_at events lo l k :
  length (counters_at events lo l k) = length (zeros l).
Proof. apply length_apply_events. Qed.

(** The colour of a unit of the address range, by its counter. *)
Lemma unit_colour n l allocated j c :
  grid_layout n = Returned l ->
  length allocated = length (zeros l) ->
  Z.of_nat j < n ->
  allocated !! j = Some c ->
  render_image allocated (padding_pixels l) !! j
  = Some (if c =? 1 then free_colour
          else if c =? 0 then used_colour else invalid_colour).
Proof.
  intros Hl Hlen Hj Hc. rewrite (lookup_render_image _ _ _ _ Hc).
  pose proof (length_zeros _ _ Hl) as Hz. rewrite <- Hlen in Hz.
  destruct (grid_layout_shape _ _ Hl) as (_ & _ & _ & Hp & _).
  f_equal.
  destruct (Z.ltb_spec c 0), (Z.gtb_spec c 1), (Z.eqb_spec c 1), (Z.eqb_spec c 0);
    cbn; try lia; try reflexivity.
  destruct (Z.eqb_spec (padding_pixels l) 0); [reflexivity|].
  now rewrite in_slice_padding by lia.
Qed.

End Frames.

(** C1, amended. In every frame, a unit of the address range whose
    counter is [c] has the colour [free_colour] (green) if [c = 1],
    [used_colour] (dark blue) if [c = 0], and [invalid_colour] (red)
    otherwise. *)
Theorem unit_colour_by_counter
    (contents : string) (events : list event) (lo hi : Z)
    (frames : list frame) (k : nat) (fr : frame) (j : nat) (c : Z) :
  parse_events contents = Returned events ->
  calc_bounds events = (Int lo, Int hi) ->
  replay_iterate contents = Returned frames ->
  frames !! k = Some fr ->
  Z.of_nat j < hi - lo ->
  counters_at events lo (image_layout fr) k !! j = Some c ->
  image fr !! j
  = Some (if c =? 1 then free_colour
          else if c =? 0 then used_colour else invalid_colour).
Proof.
  intros Hp Hb Hr Hk Hj Hc.
  destruct (replay_iterate_lookup _ _ _ _ _ _ _ Hp Hb Hr Hk) as (l & e & Hl & He & ->).
  rewrite render_frame_layout in Hc. rewrite render_frame_image.
  eapply unit_colour; eauto using length_counters_at.
Qed.

Lemma unit_colour_by_counter_witness :
  exists fr,
    replay_iterate "+ 0 10" = Returned [fr]
    /\ image fr !! 3%nat
       = Some (if 1 =? 1 then free_colour
               else if 1 =? 0 then used_colour else invalid_colour).
Proof.
  eexists. split; [reflexivity|].
  eapply (unit_colour_by_counter "+ 0 10" [("+"%string, 0, 10)] 0 10)
    with (k := 0%nat); reflexivity.
Defined.

(** C1 as stated fails: after the single event [(+, 0, 10)] the units of
    the range have counter 1 and are green, where the stated colouring
    has dark blue. *)
Lemma unit_colour_as_stated_fails :
  exists fr,
    replay_iterate "+ 0 10" = Returned [fr]
    /\ counters_at [("+"%string, 0, 10)] 0 (image_layout fr) 0 !! 3%nat = Some 1
    /\ image fr !! 3%nat = Some free_colour
    /\ image fr !! 3%nat <> Some (stated_unit_colour 1).
Proof.
  eexists. split; [reflexivity|]. repeat split. discriminate.
Qed.

(** ** The Free percentage *)

Section Percent.

Implicit Types (events : list event) (allocated counters : list Z) (l : layout).

Lemma mask_sum_is_free counters : mask_sum (is_free_mask counters) = count_ones counters.
Proof.
  unfold mask_sum, count_ones, is_free_mask. f_equal.
  induction counters as [|c counters IH]; [reflexivity|].
  rewrite fmap_cons, !filter_cons.
  destruct (Z.eqb_spec c 1) as [->|Hc].
  - rewrite !decide_True by reflexivity. simpl. now rewrite IH.
  - rewrite !decide_False by (congruence || discriminate). exact IH.
Qed.

Lemma count_ones_app a b : count_ones (a ++ b) = count_ones a + count_ones b.
Proof. unfold count_ones. rewrite filter_app, List.length_app. lia. Qed.

Lemma count_ones_zeros counters :
  Forall (fun c => c = 0) counters -> count_ones counters = 0.
Proof.
  unfold count_ones. induction 1 as [|c counters -> _ IH]; [reflexivity|].
  rewrite filter_cons, decide_False by discriminate. exact IH.
Qed.

(** With sizes that are not negative the padding cells are never updated. *)
Lemma padding_untouched events lo hi :
  Forall (fun e => 0 <= ev_size e) events ->
  calc_bounds events = (Int lo, Int hi) ->
  forall applied,
    Forall (fun e => e ∈ events) applied ->
    forall allocated j,
      hi - lo <= Z.of_nat j ->
      apply_events lo allocated applied !! j = allocated !! j.
Proof.
  intros Hsize Hb applied Happlied.
  induction Happlied as [|e applied He _ IH]; intros allocated j Hj; [reflexivity|].
  unfold apply_events in *. simpl. rewrite IH by exact Hj.
  destruct (decide (apply_event lo allocated e !! j = allocated !! j)) as [|Hch]; [assumption|].
  pose proof (apply_event_changes_inside _ _ _ _ _ _ Hsize Hb He Hch). lia.
Qed.

Lemma counters_at_padding events lo hi l k :
  Forall (fun e => 0 <= ev_size e) events ->
  calc_bounds events = (Int lo, Int hi) ->
  Forall (fun c => c = 0) (drop (Z.to_nat (hi - lo)) (counters_at events lo l k)).
Proof.
  intros Hsize Hb. apply Forall_lookup. intros i c.
  rewrite lookup_drop. unfold counters_at.
  rewrite (padding_untouched events lo hi Hsize Hb) by
    (first [apply Forall_forall; intros e He; eapply subseteq_take, He | lia]).
  unfold zeros. intros Hc. now apply lookup_replicate_1 in Hc.
Qed.

(** The count over the whole grid is the count over the address range. *)
Lemma count_ones_counters_at events lo hi l k :
  Forall (fun e => 0 <= ev_size e) events ->
  calc_bounds events = (Int lo, Int hi) ->
  count_ones (counters_at events lo l k)
  = count_ones (take (Z.to_nat (hi - lo)) (counters_at events lo l k)).
Proof.
  intros Hsize Hb.
  rewrite <- (take_drop (Z.to_nat (hi - lo)) (counters_at events lo l k)) at 1.
  rewrite count_ones_app, (count_ones_zeros (drop _ _)); [lia|].
  eapply counters_at_padding; eassumption.
Qed.

Lemma grid_layout_zero : grid_layout 0 = Returned (Layout 32 0 0 10).
Proof. reflexivity. Qed.

End Percent.

(** C2, amended. The number shown as Free percentage is the number of
    units whose counter is 1 divided by [allocations_size]; when no event
    has a negative size these units all lie in the address range, so it is
    the fraction of non-padding units with counter 1.  For the single
    event [(+, 0, 10)] it is 1. *)
Theorem free_fraction_counts_ones
    (contents : string) (events : list event) (lo hi : Z)
    (frames : list frame) (k : nat) (fr : frame) :
  parse_events contents = Returned events ->
  Forall (fun e => 0 <= ev_size e) events ->
  calc_bounds events = (Int lo, Int hi) ->
  replay_iterate contents = Returned frames ->
  frames !! k = Some fr ->
  percent_free fr
  = true_divide
      (count_ones (take (Z.to_nat (hi - lo)) (counters_at events lo (image_layout fr) k)))
      (hi - lo).
Proof.
  intros Hp Hsize Hb Hr Hk.
  destruct (replay_iterate_lookup _ _ _ _ _ _ _ Hp Hb Hr Hk) as (l & e & Hl & He & ->).
  rewrite render_frame_layout, render_frame_percent, mask_sum_is_free.
  now rewrite (count_ones_counters_at events lo hi l k Hsize Hb).
Qed.

Lemma free_fraction_counts_ones_witness :
  exists fr,
    replay_iterate "+ 0 10" = Returned [fr]
    /\ percent_free fr = Finite 1
    /\ percent_free fr
       = true_divide
           (count_ones
              (take (Z.to_nat (10 - 0))
                 (counters_at [("+"%string, 0, 10)] 0 (image_layout fr) 0)))
           (10 - 0).
Proof.
  eexists. split; [reflexivity|]. split; [reflexivity|].
  eapply (free_fraction_counts_ones "+ 0 10" [("+"%string, 0, 10)] 0 10)
    with (k := 0%nat).
  - reflexivity.
  - repeat constructor. vm_compute. discriminate.
  - reflexivity.
  - reflexivity.
  - reflexivity.
Defined.

(** C2 as stated fails: for the single event [(+, 0, 10)] the frame shows
    a Free fraction of 1, not 0. *)
Lemma free_fraction_as_stated_fails :
  exists fr,
    replay_iterate "+ 0 10" = Returned [fr]
    /\ calc_bounds [("+"%string, 0, 10)] = (Int 0, Int 10)
    /\ percent_free fr = Finite 1
    /\ percent_free fr <> Finite 0.
Proof.
  eexists. split; [reflexivity|]. repeat split. discriminate.
Qed.

(** C3, amended. When [allocations_size = 0] and there are events, the
    division is not guarded: the loop runs for every event and the Free
    value it computes for each frame is the result of dividing 0 by 0,
    which is numpy's [nan]. *)
Theorem zero_size_divides_by_zero
    (contents : string) (events : list event) (lo hi : Z) :
  parse_events contents = Returned events ->
  events <> [] ->
  calc_bounds events = (Int lo, Int hi) ->
  hi - lo = 0 ->
  exists frames,
    replay_iterate contents = Returned frames
    /\ length frames = length events
    /\ Forall (fun fr => percent_free fr = true_divide 0 0 /\ percent_free fr = NaN) frames.
Proof.
  intros Hp Hne Hb Hz.
  destruct (replay_iterate_frames _ _ _ _ Hp Hne Hb) as (l & Hl & Hr); [lia|].
  rewrite Hz in *. rewrite grid_layout_zero in Hl. injection Hl as <-.
  eexists. split; [exact Hr|]. split; [apply length_replay_loop|].
  apply Forall_lookup. intros k fr. rewrite lookup_replay_loop.
  destruct (events !! k) as [e|]; [|discriminate]. intros [= <-].
  rewrite render_frame_percent.
  assert (apply_events lo (zeros (Layout 32 0 0 10)) (take (S k) events) = []) as ->.
  { apply length_zero_iff_nil. now rewrite length_apply_events. }
  now split.
Qed.

Lemma zero_size_divides_by_zero_witness :
  exists frames,
    replay_iterate "+ 0 0" = Returned frames
    /\ length frames = length [("+"%string, 0, 0)]
    /\ Forall (fun fr => percent_free fr = true_divide 0 0 /\ percent_free fr = NaN) frames.
Proof.
  apply (zero_size_divides_by_zero "+ 0 0" [("+"%string, 0, 0)] 0 0).
  - reflexivity.
  - discriminate.
  - reflexivity.
  - reflexivity.
Defined.

(** C3 as stated fails: for the log [+ 0 0] the size is 0, the run still
    builds a frame, and the Free value of that frame is not a number. *)
Lemma zero_size_not_short_circuited :
  exists fr,
    parse_events "+ 0 0" = Returned [("+"%string, 0, 0)]
    /\ calc_bounds [("+"%string, 0, 0)] = (Int 0, Int 0)
    /\ replay_iterate "+ 0 0" = Returned [fr]
    /\ percent_free fr = true_divide (mask_sum (is_free_mask [])) (0 - 0)
    /\ forall q, percent_free fr <> Finite q.
Proof.
  eexists. repeat split. discriminate.
Qed.

(** ** The description of the event *)

Section Description.

Import Format.

Lemma length_zeros_string n :
  String.length (string_of_list_ascii (replicate n "0"%char)) = n.
Proof. induction n as [|n IH]; [reflexivity|]. simpl. now rewrite IH. Qed.

Lemma hex_value_zeros n s :
  hex_value (string_of_list_ascii (replicate n "0"%char) +:+ s) = hex_value s.
Proof.
  induction n as [|n IH]; [reflexivity|].
  cbn [replicate string_of_list_ascii]. rewrite append_cons.
  cbn [hex_value]. rewrite IH. change (hex_digit_value "0") with 0. lia.
Qed.

Lemma hex_digit_value_char d : 0 <= d < 16 -> hex_digit_value (hex_char d) = d.
Proof.
  intros Hd.
  assert (d = 0 \/ d = 1 \/ d = 2 \/ d = 3 \/ d = 4 \/ d = 5 \/ d = 6 \/ d = 7
          \/ d = 8 \/ d = 9 \/ d = 10 \/ d = 11 \/ d = 12 \/ d = 13 \/ d = 14
          \/ d = 15) as H by lia.
  repeat (destruct H as [->|H]; [reflexivity|]). now subst.
Qed.

Lemma pow_of_nat_succ b n : b ^ Z.of_nat (S n) = b * b ^ Z.of_nat n.
Proof. rewrite Nat2Z.inj_succ. apply Z.pow_succ_r. lia. Qed.

Lemma hex_go_value fuel :
  forall x acc,
    0 <= x < 2 ^ Z.of_nat fuel ->
    hex_value (hex_go fuel x acc)
    = x * 16 ^ Z.of_nat (String.length acc) + hex_value acc.
Proof.
  induction fuel as [|fuel IH]; intros x acc Hx.
  - change (2 ^ Z.of_nat 0) with 1 in Hx. assert (x = 0) as -> by lia.
    simpl. lia.
  - rewrite pow_of_nat_succ in Hx. cbn [hex_go].
    destruct (Z.leb_spec x 0) as [Hle|Hpos].
    { assert (x = 0) as -> by lia. lia. }
    rewrite IH.
    + cbn [String.length hex_value]. rewrite pow_of_nat_succ.
      rewrite hex_digit_value_char by (apply Z.mod_pos_bound; lia).
      rewrite (Z.div_mod x 16) at 3 by lia. ring.
    + split; [apply Z.div_pos; lia|]. apply Z.div_lt_upper_bound; lia.
Qed.

Lemma hex_go_length fuel :
  forall (k : nat) x acc,
    0 <= x < 16 ^ Z.of_nat k ->
    (String.length (hex_go fuel x acc) <= k + String.length acc)%nat.
Proof.
  induction fuel as [|fuel IH]; intros k x acc Hx; cbn [hex_go]; [lia|].
  destruct (Z.leb_spec x 0) as [Hle|Hpos]; [lia|].
  destruct k as [|k]; [change (16 ^ Z.of_nat 0) with 1 in Hx; lia|].
  rewrite pow_of_nat_succ in Hx.
  etransitivity; [apply (IH k)|simpl; lia].
  split; [apply Z.div_pos; lia|]. apply Z.div_lt_upper_bound; lia.
Qed.

Lemma hex_value_hex x : 0 <= x -> hex_value (hex x) = x.
Proof.
  intros Hx. unfold hex. destruct (Z.leb_spec x 0) as [Hle|Hpos].
  { assert (x = 0) as -> by lia. reflexivity. }
  rewrite hex_go_value; [simpl; lia|].
  pose proof (Z.log2_spec x Hpos) as [_ Hlt].
  rewrite Nat2Z.inj_succ, Z2Nat.id by apply Z.log2_nonneg. lia.
Qed.

Lemma length_hex_le x (k : nat) :
  0 <= x < 16 ^ Z.of_nat k -> (0 < k)%nat -> (String.length (hex x) <= k)%nat.
Proof.
  intros Hx Hk. unfold hex. destruct (Z.leb_spec x 0); [simpl; lia|].
  etransitivity; [apply (hex_go_length _ k); exact Hx|simpl; lia].
Qed.

(** An offset that fits 32 bits is shown as exactly eight hexadecimal
    digits, which read back as the offset. *)
Lemma format_08x_eight_digits x :
  0 <= x < 2 ^ 32 ->
  String.length (format_08x x) = 8%nat /\ hex_value (format_08x x) = x.
Proof.
  intros Hx. unfold format_08x. destruct (Z.ltb_spec x 0); [lia|].
  unfold zfill. rewrite length_append, length_zeros_string, hex_value_zeros.
  split; [|apply hex_value_hex; lia].
  pose proof (length_hex_le x 8). change (16 ^ Z.of_nat 8) with (2 ^ 32) in *. lia.
Qed.

Lemma render_frame_operation l n k e allocated :
  operation_text (render_frame l n k e allocated)
  = (if String.eqb (ev_mode e) "+" then "free " else "alloc")
    +:+ " 0x" +:+ format_08x (ev_offset e) +:+ " : " +:+ str (ev_size e).
Proof. now destruct e as [[m o] s]. Qed.

End Description.

(** C4, amended. The description in the frame of an event starts with
    the label ["free "] for a ['+'] event and ["alloc"] for a ['-'] event;
    then come [" 0x"], the offset in hexadecimal padded with zeros to
    eight characters, [" : "] and the size in decimal.  An offset in
    [0, 2^32) is shown as exactly eight digits that read back as the
    offset. *)
Theorem operation_text_of_event
    (contents : string) (events : list event) (frames : list frame)
    (k : nat) (fr : frame) (e : event) :
  parse_events contents = Returned events ->
  replay_iterate contents = Returned frames ->
  frames !! k = Some fr ->
  events !! k = Some e ->
  ((ev_mode e = "+"%string
    /\ operation_text fr
       = "free " +:+ " 0x" +:+ Format.format_08x (ev_offset e)
         +:+ " : " +:+ Format.str (ev_size e))
   \/ (ev_mode e = "-"%string
       /\ operation_text fr
          = "alloc" +:+ " 0x" +:+ Format.format_08x (ev_offset e)
            +:+ " : " +:+ Format.str (ev_size e)))
  /\ (0 <= ev_offset e < 2 ^ 32 ->
      String.length (Format.format_08x (ev_offset e)) = 8%nat
      /\ hex_value (Format.format_08x (ev_offset e)) = ev_offset e).
Proof.
  intros Hp Hr Hk He. split; [|apply format_08x_eight_digits].
  destruct (calc_bounds_nonempty events) as (lo & hi & Hb & _).
  { intros ->. discriminate. }
  destruct (replay_iterate_lookup _ _ _ _ _ _ _ Hp Hb Hr Hk) as (l & e' & _ & He' & ->).
  rewrite He in He'. injection He' as <-.
  rewrite render_frame_operation.
  pose proof (parse_events_modes _ _ Hp) as Hmodes.
  rewrite Forall_lookup in Hmodes.
  destruct (Hmodes k e He) as [Hm|Hm]; rewrite Hm; [left|right]; now split.
Qed.

Lemma operation_text_of_event_witness :
  exists fr,
    replay_iterate ("+ 0 10" +:+ String newline "- 255 4")
    = Returned [fr.1; fr.2]
    /\ operation_text fr.1 = "free  0x00000000 : 10"%string
    /\ operation_text fr.2 = "alloc 0x000000ff : 4"%string
    /\ ((ev_mode ("-"%string, 255, 4) = "+"%string
         /\ operation_text fr.2
            = "free " +:+ " 0x" +:+ Format.format_08x (ev_offset ("-"%string, 255, 4))
              +:+ " : " +:+ Format.str (ev_size ("-"%string, 255, 4)))
        \/ (ev_mode ("-"%string, 255, 4) = "-"%string
            /\ operation_text fr.2
               = "alloc" +:+ " 0x" +:+ Format.format_08x (ev_offset ("-"%string, 255, 4))
                 +:+ " : " +:+ Format.str (ev_size ("-"%string, 255, 4))))
       /\ (0 <= ev_offset ("-"%string, 255, 4) < 2 ^ 32 ->
           String.length (Format.format_08x (ev_offset ("-"%string, 255, 4))) = 8%nat
           /\ hex_value (Format.format_08x (ev_offset ("-"%string, 255, 4)))
              = ev_offset ("-"%string, 255, 4)).
Proof.
  eexists (_, _). split; [reflexivity|]. split; [reflexivity|]. split; [reflexivity|].
  eapply (operation_text_of_event ("+ 0 10" +:+ String newline "- 255 4"))
    with (k := 1%nat); reflexivity.
Defined.

(** C4 as stated fails: the frame of the event [(+, 0, 10)] is labelled
    [free], where the stated text has [alloc]. *)
Lemma operation_text_as_stated_fails :
  exists fr,
    replay_iterate "+ 0 10" = Returned [fr]
    /\ operation_text fr = "free  0x00000000 : 10"%string
    /\ stated_operation_text ("+"%string, 0, 10) = "alloc 0x00000000 : 10"%string
    /\ operation_text fr <> stated_operation_text ("+"%string, 0, 10).
Proof.
  eexists. split; [reflexivity|]. repeat split. discriminate.
Qed.

(** * Further properties of the code *)

(** ** Runs that return and runs that raise *)

Section Runs.

Implicit Types (events : list event) (e : event).

(** With sizes that are not negative the span of the bounds is not
    negative. *)
Lemma nonneg_sizes_span events lo hi :
  Forall (fun e => 0 <= ev_size e) events ->
  calc_bounds events = (Int lo, Int hi) ->
  lo <= hi.
Proof.
  intros Hsize Hb.
  assert (events <> []) as Hne by (intros ->; discriminate).
  destruct (calc_bounds_nonempty events Hne) as (lo' & hi' & Hb' & (e & He & Hlo) & _ & _ & Hmax).
  rewrite Hb in Hb'. injection Hb' as <- <-.
  rewrite Forall_forall in Hsize. specialize (Hsize e He). specialize (Hmax e He). lia.
Qed.

Lemma calc_bounds_int_nonempty events lo hi :
  calc_bounds events = (Int lo, Int hi) -> events <> [].
Proof. intros Hb ->. discriminate. Qed.

(** A run that returns frames has parsed its log. *)
Lemma replay_iterate_parsed contents frames :
  replay_iterate contents = Returned frames ->
  exists events, parse_events contents = Returned events.
Proof.
  unfold replay_iterate. destruct (parse_events contents) as [events|exn]; [eauto|discriminate].
Qed.

Lemma render_frame_idx l n k e allocated :
  idx_text (render_frame l n k e allocated) = "Event ID: " +:+ Format.str (Z.of_nat k).
Proof. now destruct e as [[m o] s]. Qed.

End Runs.

(** X1. When the run returns, it returns exactly one frame per
    parsed event, and frame [k] carries the text ["Event ID: k"]. *)
Theorem one_frame_per_event_with_index
    (contents : string) (events : list event) (frames : list frame) :
  parse_events contents = Returned events ->
  replay_iterate contents = Returned frames ->
  length frames = length events
  /\ forall k fr, frames !! k = Some fr ->
       idx_text fr = "Event ID: " +:+ Format.str (Z.of_nat k).
Proof.
  intros Hp Hr. destruct events as [|e0 events].
  { rewrite (replay_iterate_empty _ Hp) in Hr. injection Hr as <-.
    split; [reflexivity|]. intros k fr Hk. destruct k; discriminate. }
  destruct (calc_bounds_nonempty (e0 :: events)) as (lo & hi & Hb & _); [discriminate|].
  destruct (Z.le_gt_cases lo hi) as [Hle|Hlt].
  2:{ rewrite (replay_iterate_negative _ _ _ _ Hp ltac:(discriminate) Hb Hlt) in Hr.
      discriminate. }
  destruct (replay_iterate_frame_count _ _ _ _ Hp ltac:(discriminate) Hb Hle)
    as (l & frames' & _ & Hr' & Hlen & Hframes).
  rewrite Hr in Hr'. injection Hr' as <-.
  split; [exact Hlen|].
  intros k fr Hk.
  assert (is_Some ((e0 :: events) !! k)) as [e He].
  { apply lookup_lt_is_Some. rewrite <- Hlen. now apply lookup_lt_Some in Hk. }
  rewrite (Hframes k e He) in Hk. injection Hk as <-. apply render_frame_idx.
Qed.

Lemma one_frame_per_event_with_index_witness :
  exists frames,
    replay_iterate ("+ 0 8" +:+ String newline "- 4 4") = Returned frames
    /\ length frames = length [("+"%string, 0, 8); ("-"%string, 4, 4)]
    /\ forall k fr, frames !! k = Some fr ->
         idx_text fr = "Event ID: " +:+ Format.str (Z.of_nat k).
Proof.
  eexists. split; [reflexivity|].
  apply (one_frame_per_event_with_index
           ("+ 0 8" +:+ String newline "- 4 4")
           [("+"%string, 0, 8); ("-"%string, 4, 4)]); reflexivity.
Defined.

(** X2. For a span from [- 2 ^ 1023] up to [2 ^ 50], the run raises
    [TypeError] exactly when the span is negative: the largest
    [offset + size] of the events is below their smallest offset. *)
Theorem replay_iterate_type_error
    (contents : string) (events : list event) (lo hi : Z) :
  parse_events contents = Returned events ->
  calc_bounds events = (Int lo, Int hi) ->
  - 2 ^ 1023 <= hi - lo < 2 ^ 50 ->
  (replay_iterate contents = Raised TypeError <-> hi < lo).
Proof.
  intros Hp Hb _. pose proof (calc_bounds_int_nonempty _ _ _ Hb) as Hne. split.
  - intros Hr. destruct (Z.le_gt_cases lo hi) as [Hle|Hlt]; [|lia].
    destruct (replay_iterate_frames _ _ _ _ Hp Hne Hb Hle) as (l & _ & Hr').
    rewrite Hr in Hr'. discriminate.
  - intros Hlt. now apply (replay_iterate_negative _ _ _ _ Hp Hne Hb).
Qed.

Lemma replay_iterate_type_error_witness :
  replay_iterate "+ 0 -5" = Raised TypeError <-> -5 < 0.
Proof.
  apply (replay_iterate_type_error "+ 0 -5" [("+"%string, 0, -5)] 0 (-5)).
  - reflexivity.
  - reflexivity.
  - vm_compute. split; [discriminate | reflexivity].
Defined.

(** ** The counters as sums over the events *)

Section CounterSums.

Implicit Types (events : list event) (e : event) (allocated : list Z).

Lemma lookup_apply_event lo allocated e j :
  apply_event lo allocated e !! j
  = (fun c => c + (if in_slice (ev_offset e - lo) (ev_offset e + ev_size e - lo)
                        (Z.of_nat (length allocated)) j
                   then event_delta e else 0))
      <$> allocated !! j.
Proof.
  destruct e as [[m o] s]. unfold apply_event, event_delta, ev_mode, ev_offset, ev_size.
  cbn [fst snd]. rewrite lookup_slice_iadd.
  destruct (allocated !! j) as [c|]; [|reflexivity]. cbn.
  destruct (in_slice _ _ _ _); f_equal; lia.
Qed.

Lemma lookup_apply_events lo events :
  forall allocated j,
    apply_events lo allocated events !! j
    = (fun c => c + slice_sum lo (Z.of_nat (length allocated)) events j)
        <$> allocated !! j.
Proof.
  induction events as [|e events IH]; intros allocated j.
  - cbn. destruct (allocated !! j); cbn; [f_equal; lia | reflexivity].
  - unfold apply_events in *. cbn [fold_left slice_sum].
    rewrite IH, length_apply_event, lookup_apply_event.
    destruct (allocated !! j); cbn; [f_equal; lia | reflexivity].
Qed.

Lemma slice_sum_bound lo len events j :
  Z.abs (slice_sum lo len events j) <= Z.of_nat (length events).
Proof.
  induction events as [|e events IH]; [cbn; lia|].
  cbn [slice_sum length]. unfold event_delta.
  destruct (in_slice _ _ _ _), (String.eqb (ev_mode e) "+"); lia.
Qed.

Lemma slice_sum_permutation lo len events events' j :
  events ≡ₚ events' -> slice_sum lo len events j = slice_sum lo len events' j.
Proof.
  induction 1 as [|e ? ? _ IH|e e' ?|? ? ? _ IH1 _ IH2]; cbn [slice_sum]; lia.
Qed.

(** On an array that holds the slice, a slice with bounds that are not
    negative is the range between them. *)
Lemma in_slice_range start stop len j :
  0 <= start -> 0 <= stop -> Z.of_nat j < len ->
  in_slice start stop len j = (start <=? Z.of_nat j) && (Z.of_nat j <? stop).
Proof.
  intros Hstart Hstop Hj. unfold in_slice, slice_index.
  destruct (Z.ltb_spec start 0), (Z.ltb_spec stop 0); lia.
Qed.

Lemma slice_sum_net_count events lo hi len applied j :
  Forall (fun e => 0 <= ev_size e) events ->
  calc_bounds events = (Int lo, Int hi) ->
  Forall (fun e => e ∈ events) applied ->
  Z.of_nat j < len ->
  slice_sum lo len applied j = net_count applied (lo + Z.of_nat j).
Proof.
  intros Hsize Hb Happlied Hj.
  induction Happlied as [|e applied He _ IH]; [reflexivity|].
  cbn [slice_sum net_count]. rewrite IH. f_equal.
  destruct (event_range_nonneg events lo hi e Hsize Hb He) as [Hstart Hstop].
  rewrite in_slice_range by lia. unfold covers.
  destruct (Z.leb_spec (ev_offset e - lo) (Z.of_nat j)),
    (Z.leb_spec (ev_offset e) (lo + Z.of_nat j)),
    (Z.ltb_spec (Z.of_nat j) (ev_offset e + ev_size e - lo)),
    (Z.ltb_spec (lo + Z.of_nat j) (ev_offset e + ev_size e));
    try reflexivity; lia.
Qed.

Lemma take_in_events events n : Forall (fun e => e ∈ events) (take n events).
Proof. apply Forall_forall. intros e He. eapply subseteq_take, He. Qed.

Lemma counters_at_net_count events lo hi l k j :
  Forall (fun e => 0 <= ev_size e) events ->
  calc_bounds events = (Int lo, Int hi) ->
  grid_layout (hi - lo) = Returned l ->
  (j < length (zeros l))%nat ->
  counters_at events lo l k !! j
  = Some (net_count (take (S k) events) (lo + Z.of_nat j)).
Proof.
  intros Hsize Hb Hl Hj. unfold counters_at.
  rewrite lookup_apply_events.
  unfold zeros in *. rewrite lookup_replicate_2 by (now rewrite length_replicate in Hj).
  cbn. f_equal.
  rewrite (slice_sum_net_count events lo hi) by (auto using take_in_events; lia).
  lia.
Qed.

Lemma slice_sum_app lo len events events' j :
  slice_sum lo len (events ++ events') j
  = slice_sum lo len events j + slice_sum lo len events' j.
Proof. induction events as [|e events IH]; cbn [slice_sum app]; lia. Qed.

End CounterSums.

(** X3. When no event has a negative size, the counter a frame shows for
    the unit at address [min_offset + j] is the number of ['+'] events so
    far whose range [offset, offset + size) holds that address, minus
    the number of ['-'] events so far whose range holds it. *)
Theorem counter_is_net_count
    (events : list event) (lo hi : Z) (l : layout) (k j : nat) :
  Forall (fun e => 0 <= ev_size e) events ->
  calc_bounds events = (Int lo, Int hi) ->
  grid_layout (hi - lo) = Returned l ->
  (j < length (zeros l))%nat ->
  counters_at events lo l k !! j
  = Some (net_count (take (S k) events) (lo + Z.of_nat j)).
Proof. apply counters_at_net_count. Qed.

Lemma counter_is_net_count_witness :
  counters_at [("+"%string, 0, 8); ("-"%string, 4, 4); ("+"%string, 2, 4)]
    0 (Layout 32 1 24 10) 2 !! 3%nat
  = Some (net_count
            (take 3 [("+"%string, 0, 8); ("-"%string, 4, 4); ("+"%string, 2, 4)])
            (0 + Z.of_nat 3))
  /\ net_count [("+"%string, 0, 8); ("-"%string, 4, 4); ("+"%string, 2, 4)] 3 = 2.
Proof.
  split; [|reflexivity].
  apply (counter_is_net_count _ 0 8).
  - repeat constructor; vm_compute; discriminate.
  - reflexivity.
  - reflexivity.
  - vm_compute. lia.
Defined.

(** X4. The counters left by a list of events do not depend on the order
    in which the events are applied. *)
Theorem apply_events_order_independent
    (min_offset : Z) (allocated : list Z) (events events' : list event) :
  events ≡ₚ events' ->
  apply_events min_offset allocated events = apply_events min_offset allocated events'.
Proof.
  intros Hperm. apply list_eq. intros j.
  rewrite !lookup_apply_events.
  now rewrite (slice_sum_permutation _ _ _ _ j Hperm).
Qed.

Lemma apply_events_order_independent_witness :
  apply_events 0 [0; 0; 0; 0; 0; 0]
    [("+"%string, 0, 4); ("-"%string, 2, 3); ("+"%string, 1, 1)]
  = apply_events 0 [0; 0; 0; 0; 0; 0]
      [("+"%string, 1, 1); ("+"%string, 0, 4); ("-"%string, 2, 3)].
Proof.
  apply apply_events_order_independent. symmetry.
  apply (Permutation_cons_append [("+"%string, 0, 4); ("-"%string, 2, 3)]).
Defined.

(** X5. A counter moves by at most one per event: after the first
    [k + 1] events of a run every counter lies between [-(k + 1)] and
    [k + 1]. *)
Theorem counter_bounded_by_events
    (events : list event) (lo : Z) (l : layout) (k j : nat) (c : Z) :
  counters_at events lo l k !! j = Some c ->
  - Z.of_nat (S k) <= c <= Z.of_nat (S k).
Proof.
  unfold counters_at. rewrite lookup_apply_events.
  destruct (zeros l !! j) as [c0|] eqn:Hc0; [|discriminate].
  apply lookup_replicate_1 in Hc0 as [-> _]. cbn. intros [= <-].
  pose proof (slice_sum_bound lo (Z.of_nat (length (zeros l))) (take (S k) events) j) as Hb.
  rewrite length_take in Hb. lia.
Qed.

Lemma counter_bounded_by_events_witness :
  counters_at [("+"%string, 0, 8); ("+"%string, 0, 8)] 0 (Layout 32 1 24 10) 1 !! 3%nat
  = Some 2
  /\ - Z.of_nat 2 <= 2 <= Z.of_nat 2.
Proof.
  split; [reflexivity|].
  apply (counter_bounded_by_events
           [("+"%string, 0, 8); ("+"%string, 0, 8)] 0 (Layout 32 1 24 10) 1 3 2).
  reflexivity.
Defined.

(** ** The padding cells and the Free value *)

Section PaddingAndFree.

Implicit Types (events : list event) (allocated counters : list Z) (l : layout).

Lemma length_render_image allocated p :
  length (render_image allocated p) = length allocated.
Proof.
  unfold render_image, mask_assign, is_free_mask, invalid_mask.
  rewrite !length_zip_with, !length_fmap.
  destruct (p =? 0); [|unfold fill_tail; rewrite length_imap];
    rewrite length_replicate; lia.
Qed.

Lemma in_slice_tail p len j :
  0 < p <= len -> len - p <= Z.of_nat j < len -> in_slice (- p) len len j = true.
Proof.
  intros Hp Hj. unfold in_slice, slice_index.
  destruct (Z.ltb_spec (- p) 0), (Z.ltb_spec len 0); lia.
Qed.

Lemma count_ones_le counters : 0 <= count_ones counters <= Z.of_nat (length counters).
Proof.
  unfold count_ones. pose proof (length_filter (fun c => c = 1) counters). lia.
Qed.

Lemma true_divide_fraction a n :
  0 <= a <= n -> 0 < n ->
  exists q, true_divide a n = Finite q /\ (0 <= q <= 1)%Q.
Proof.
  intros Ha Hn. unfold true_divide. destruct (Z.eqb_spec n 0); [lia|].
  eexists. split; [reflexivity|]. rewrite !Qred_correct.
  destruct n as [|p|p]; try lia.
  unfold Qle, Qdiv, Qmult, Qinv, inject_Z. cbn. lia.
Qed.

End PaddingAndFree.

(** X6. The image of a frame has one colour per grid cell, and when no
    event has a negative size every padding cell, the cells from index
    [allocations_size] on, has the background grey. *)
Theorem padding_cells_are_background
    (contents : string) (events : list event) (lo hi : Z)
    (frames : list frame) (k : nat) (fr : frame) (j : nat) :
  parse_events contents = Returned events ->
  Forall (fun e => 0 <= ev_size e) events ->
  calc_bounds events = (Int lo, Int hi) ->
  replay_iterate contents = Returned frames ->
  frames !! k = Some fr ->
  Z.of_nat (length (image fr)) = width (image_layout fr) * height (image_layout fr)
  /\ (hi - lo <= Z.of_nat j -> (j < length (image fr))%nat ->
      image fr !! j = Some (background, background, background)).
Proof.
  intros Hp Hsize Hb Hr Hk.
  destruct (replay_iterate_lookup _ _ _ _ _ _ _ Hp Hb Hr Hk) as (l & e & Hl & He & ->).
  rewrite render_frame_layout, render_frame_image, length_render_image, length_counters_at.
  pose proof (length_zeros _ _ Hl) as Hlen.
  destruct (grid_layout_shape _ _ Hl) as (Hn & Hw & Hh & Hpad & Heq).
  split; [lia|]. intros Hj Hjlen.
  assert (is_Some (counters_at events lo l k !! j)) as [c Hc].
  { apply lookup_lt_is_Some. now rewrite length_counters_at. }
  assert (c = 0) as ->.
  { pose proof (counters_at_padding events lo hi l k Hsize Hb) as Hpadding.
    rewrite Forall_lookup in Hpadding.
    apply (Hpadding (j - Z.to_nat (hi - lo))%nat).
    rewrite lookup_drop, <- Hc. f_equal. lia. }
  rewrite (lookup_render_image _ _ _ _ Hc), length_counters_at. cbn.
  destruct (Z.eqb_spec (padding_pixels l) 0); [lia|].
  rewrite in_slice_tail by lia. reflexivity.
Qed.

Lemma padding_cells_are_background_witness :
  exists fr,
    replay_iterate "+ 0 10" = Returned [fr]
    /\ Z.of_nat (length (image fr)) = width (image_layout fr) * height (image_layout fr)
    /\ (10 - 0 <= Z.of_nat 17 -> (17 < length (image fr))%nat ->
        image fr !! 17%nat = Some (background, background, background)).
Proof.
  eexists. split; [reflexivity|].
  eapply (padding_cells_are_background "+ 0 10" [("+"%string, 0, 10)] 0 10)
    with (k := 0%nat).
  - reflexivity.
  - repeat constructor; vm_compute; discriminate.
  - reflexivity.
  - reflexivity.
  - reflexivity.
Defined.

(** X7. When no event has a negative size and the address range is not
    empty, the Free value of every frame is a fraction between 0 and 1. *)
Theorem free_fraction_between_0_and_1
    (contents : string) (events : list event) (lo hi : Z)
    (frames : list frame) (k : nat) (fr : frame) :
  parse_events contents = Returned events ->
  Forall (fun e => 0 <= ev_size e) events ->
  calc_bounds events = (Int lo, Int hi) ->
  lo < hi ->
  replay_iterate contents = Returned frames ->
  frames !! k = Some fr ->
  exists q, percent_free fr = Finite q /\ (0 <= q <= 1)%Q.
Proof.
  intros Hp Hsize Hb Hlt Hr Hk.
  destruct (replay_iterate_lookup _ _ _ _ _ _ _ Hp Hb Hr Hk) as (l & e & Hl & He & ->).
  rewrite render_frame_percent, mask_sum_is_free.
  rewrite (count_ones_counters_at events lo hi l k Hsize Hb).
  apply true_divide_fraction; [|lia].
  pose proof (count_ones_le (take (Z.to_nat (hi - lo)) (counters_at events lo l k))) as Hc.
  rewrite length_take in Hc. lia.
Qed.

Lemma free_fraction_between_0_and_1_witness :
  exists fr0 fr1,
    replay_iterate ("+ 0 8" +:+ String newline "- 4 4") = Returned [fr0; fr1]
    /\ percent_free fr1 = Finite (1 # 2)
    /\ exists q, percent_free fr1 = Finite q /\ (0 <= q <= 1)%Q.
Proof.
  eexists. eexists. split; [reflexivity|]. split; [reflexivity|].
  eapply (free_fraction_between_0_and_1 ("+ 0 8" +:+ String newline "- 4 4")
            [("+"%string, 0, 8); ("-"%string, 4, 4)] 0 8)
    with (k := 1%nat).
  - reflexivity.
  - repeat constructor; vm_compute; discriminate.
  - reflexivity.
  - reflexivity.
  - reflexivity.
  - reflexivity.
Defined.

(** ** More on the bounds *)

Section MoreBounds.

Implicit Types (events : list event).

(** The bounds are fixed by the events as a set. *)
Lemma calc_bounds_same_events events events' :
  events <> [] ->
  (forall e, e ∈ events <-> e ∈ events') ->
  calc_bounds events = calc_bounds events'.
Proof.
  intros Hne Hsame.
  assert (events' <> []) as Hne'.
  { destruct events as [|e events]; [congruence|]. intros ->.
    assert (e ∈ []) as H by (apply Hsame, list_elem_of_here). inversion H. }
  destruct (calc_bounds_nonempty events Hne)
    as (lo & hi & -> & (e1 & He1 & Hlo) & Hmin & (e2 & He2 & Hhi) & Hmax).
  destruct (calc_bounds_nonempty events' Hne')
    as (lo' & hi' & -> & (e1' & He1' & Hlo') & Hmin' & (e2' & He2' & Hhi') & Hmax').
  apply Hsame in He1, He2. apply Hsame in He1', He2'.
  specialize (Hmin _ He1'). specialize (Hmin' _ He1).
  specialize (Hmax _ He2'). specialize (Hmax' _ He2).
  f_equal; f_equal; lia.
Qed.

End MoreBounds.

(** X8. The bounds do not depend on the order of the events. *)
Theorem calc_bounds_order_independent (events events' : list event) :
  events ≡ₚ events' -> calc_bounds events = calc_bounds events'.
Proof.
  intros Hperm. destruct events as [|e events].
  - apply Permutation_nil_l in Hperm as <-. reflexivity.
  - apply calc_bounds_same_events; [discriminate|].
    intros e'. now rewrite Hperm.
Qed.

Lemma calc_bounds_order_independent_witness :
  calc_bounds [("+"%string, 5, 2); ("-"%string, -3, 4); ("+"%string, 0, 20)]
  = calc_bounds [("+"%string, 0, 20); ("+"%string, 5, 2); ("-"%string, -3, 4)].
Proof.
  apply calc_bounds_order_independent. symmetry.
  apply (Permutation_cons_append [("+"%string, 5, 2); ("-"%string, -3, 4)]).
Defined.

(** X9. The bounds of two logs put together are the smaller of the two
    minima and the larger of the two maxima. *)
Theorem calc_bounds_app (events events' : list event) (lo hi lo' hi' : Z) :
  calc_bounds events = (Int lo, Int hi) ->
  calc_bounds events' = (Int lo', Int hi') ->
  calc_bounds (events ++ events') = (Int (Z.min lo lo'), Int (Z.max hi hi')).
Proof.
  intros Hb Hb'.
  pose proof (calc_bounds_int_nonempty _ _ _ Hb) as Hne.
  pose proof (calc_bounds_int_nonempty _ _ _ Hb') as Hne'.
  destruct (calc_bounds_nonempty events Hne)
    as (l1 & h1 & H1 & (e1 & He1 & Hlo1) & Hmin1 & (e2 & He2 & Hhi1) & Hmax1).
  destruct (calc_bounds_nonempty events' Hne')
    as (l2 & h2 & H2 & (e3 & He3 & Hlo2) & Hmin2 & (e4 & He4 & Hhi2) & Hmax2).
  rewrite Hb in H1. rewrite Hb' in H2. injection H1 as <- <-. injection H2 as <- <-.
  destruct (calc_bounds_nonempty (events ++ events'))
    as (l & h & -> & (a & Ha & Hlo) & Hmin & (b & Hb0 & Hhi) & Hmax).
  { destruct events; [congruence | discriminate]. }
  assert (l <= lo) by (rewrite <- Hlo1; apply Hmin, elem_of_app; auto).
  assert (l <= lo') by (rewrite <- Hlo2; apply Hmin, elem_of_app; auto).
  assert (hi <= h) by (rewrite <- Hhi1; apply Hmax, elem_of_app; auto).
  assert (hi' <= h) by (rewrite <- Hhi2; apply Hmax, elem_of_app; auto).
  apply elem_of_app in Ha as [Ha|Ha]; [apply Hmin1 in Ha | apply Hmin2 in Ha];
    apply elem_of_app in Hb0 as [Hb0|Hb0]; [apply Hmax1 in Hb0 | apply Hmax2 in Hb0 |
                                            apply Hmax1 in Hb0 | apply Hmax2 in Hb0];
    f_equal; f_equal; lia.
Qed.

Lemma calc_bounds_app_witness :
  calc_bounds ([("+"%string, 0, 10)] ++ [("+"%string, 20, 5); ("-"%string, -2, 1)])
  = (Int (Z.min 0 (-2)), Int (Z.max 10 25)).
Proof. apply calc_bounds_app; reflexivity. Defined.

(** ** More on the layout *)

(** X10. The side of a magnified cell lies between 1 and 10 pixels; it is
    10 exactly for sizes up to 41616 units and 1 exactly for sizes
    above 1048576 units, and a grid of at most 2048 cells across is
    drawn at most 2048 pixels wide. *)
Theorem cell_size_range (allocations_size : Z) (l : layout) :
  grid_layout allocations_size = Returned l ->
  1 <= cell_size l <= 10
  /\ (cell_size l = 10 <-> allocations_size <= 41616)
  /\ (cell_size l = 1 <-> 1048576 < allocations_size)
  /\ (width l <= 2048 -> width l * cell_size l <= 2048).
Proof.
  intros Hl. destruct (grid_layout_shape _ _ Hl) as (Hn & Hw & _).
  destruct (grid_layout_spec _ Hn) as (l' & c & Hl' & (Hc0 & Hcn & Hcmin) & Hwidth & _ & _ & Hcs).
  rewrite Hl in Hl'. injection Hl' as <-.
  pose proof (Z.mul_div_le 2048 (width l) ltac:(lia)) as Hdiv1.
  pose proof (Z.mul_succ_div_gt 2048 (width l) ltac:(lia)) as Hdiv2.
  assert (width l <= 204 <-> allocations_size <= 41616) as H204.
  { split; intros H.
    - assert (c <= 204) by lia. nia.
    - assert (c <= 204) by (apply Hcmin; lia). lia. }
  assert (1024 < width l <-> 1048576 < allocations_size) as H1024.
  { split; intros H.
    - destruct (Z.le_gt_cases allocations_size 1048576) as [Hle|]; [|assumption].
      assert (c <= 1024) by (apply Hcmin; lia). lia.
    - assert (1024 < c) by nia. lia. }
  rewrite Hcs. repeat split; try lia; try nia.
Qed.

Lemma cell_size_range_witness :
  grid_layout 1000000 = Returned (Layout 1000 1000 0 2)
  /\ 1 <= cell_size (Layout 1000 1000 0 2) <= 10
  /\ (cell_size (Layout 1000 1000 0 2) = 10 <-> 1000000 <= 41616)
  /\ (cell_size (Layout 1000 1000 0 2) = 1 <-> 1048576 < 1000000)
  /\ (width (Layout 1000 1000 0 2) <= 2048 ->
      width (Layout 1000 1000 0 2) * cell_size (Layout 1000 1000 0 2) <= 2048).
Proof.
  split; [reflexivity|]. apply (cell_size_range 1000000). reflexivity.
Defined.

(** X11. For sizes up to [2 ^ 52] the grid computed in double precision
    is never taller than wide, its last row is never all padding, and for
    sizes above 960 units it is square or one row short of square. *)
Theorem grid_nearly_square (allocations_size : Z) (l : layout) :
  allocations_size <= 2 ^ 52 ->
  grid_layout_float allocations_size = Returned l ->
  height l <= width l
  /\ 0 <= padding_pixels l < width l
  /\ (960 < allocations_size -> width l - 1 <= height l).
Proof.
  intros Hsmall Hl.
  assert (0 <= allocations_size) as Hn.
  { destruct (Z.lt_ge_cases allocations_size 0) as [Hneg|]; [exfalso|assumption].
    unfold grid_layout_float in Hl.
    destruct (Float.of_int allocations_size); [|discriminate].
    cbn [mbind outcome_bind] in Hl.
    destruct (Z.ltb_spec allocations_size 0); [discriminate|lia]. }
  rewrite grid_layout_float_exact in Hl by lia.
  destruct (grid_layout_shape _ _ Hl) as (_ & Hw & Hh0 & Hpad & Heq).
  destruct (grid_layout_spec _ Hn) as (l' & c & Hl' & (Hc0 & Hcn & Hcmin) & Hwidth & Hh & _).
  rewrite Hl in Hl'. injection Hl' as <-.
  split; [nia|]. split; [exact Hpad|]. intros Hbig.
  destruct (Z.le_gt_cases c 32) as [Hle|Hgt].
  - assert (width l = 32) by lia. nia.
  - assert (width l = c) as Hwc by lia.
    assert ((c - 1) * (c - 1) < allocations_size) as Hprev.
    { destruct (Z.lt_ge_cases ((c - 1) * (c - 1)) allocations_size) as [|Hge]; [assumption|].
      specialize (Hcmin (c - 1) ltac:(lia) Hge). lia. }
    rewrite Hwc in *. nia.
Qed.

Lemma grid_nearly_square_witness :
  grid_layout_float 2000 = Returned (Layout 45 45 25 10)
  /\ height (Layout 45 45 25 10) <= width (Layout 45 45 25 10)
  /\ 0 <= padding_pixels (Layout 45 45 25 10) < width (Layout 45 45 25 10)
  /\ (960 < 2000 -> width (Layout 45 45 25 10) - 1 <= height (Layout 45 45 25 10)).
Proof.
  split; [vm_compute; reflexivity|]. apply (grid_nearly_square 2000).
  - vm_compute. discriminate.
  - vm_compute. reflexivity.
Defined.

(** ** More on the parser *)

Section MoreParser.

Local Open Scope string_scope.

Lemma lines_nonempty s : lines s <> [].
Proof. destruct (lines_first_line s) as [ls ->]. discriminate. Qed.

Lemma lines_app_newline (a b : string) :
  lines (a ++ String newline b) = (lines a ++ lines b)%list.
Proof.
  induction a as [|c a IH].
  - rewrite append_nil. cbn [lines]. now rewrite Ascii.eqb_refl.
  - rewrite append_cons. cbn [lines]. rewrite IH.
    destruct (Ascii.eqb c newline); [reflexivity|].
    destruct (lines a) as [|l ls] eqn:Hl; [now apply lines_nonempty in Hl|]. reflexivity.
Qed.

Lemma lines_single l : first_line l = l -> lines l = [l].
Proof.
  induction l as [|c l IH]; [reflexivity|]. cbn [first_line lines].
  destruct (Ascii.eqb c newline); [discriminate|]. intros [= H].
  now rewrite (IH H).
Qed.

Lemma comprehension_app {A B} (f : A -> outcome B) l1 l2 r1 r2 :
  comprehension f l1 = Returned r1 ->
  comprehension f l2 = Returned r2 ->
  comprehension f (l1 ++ l2)%list = Returned (r1 ++ r2)%list.
Proof.
  revert r1. induction l1 as [|a l1 IH]; intros r1; cbn [comprehension app].
  - intros [= <-]. auto.
  - destruct (f a) as [b|]; [|discriminate]. cbn.
    destruct (comprehension f l1) as [bs|]; [|discriminate]. cbn.
    intros [= <-] H2. now rewrite (IH bs eq_refl H2).
Qed.

Lemma no_newline_app (a b : string) :
  first_line a = a -> first_line b = b -> first_line (a ++ b) = a ++ b.
Proof.
  intros Ha Hb. induction a as [|c a IH]; [exact Hb|].
  rewrite append_cons. cbn [first_line] in *.
  destruct (Ascii.eqb c newline); [discriminate|]. injection Ha as Ha.
  now rewrite (IH Ha).
Qed.

Lemma digits_no_newline d : digits d -> first_line d = d.
Proof.
  induction 1 as [c Hc|c d Hc _ IH]; cbn [first_line];
    rewrite (is_digit_not_newline c Hc); [reflexivity | now rewrite IH].
Qed.

Lemma numeral_no_newline t : numeral t -> first_line t = t.
Proof.
  intros [d Hd|d Hd]; [now apply digits_no_newline|].
  cbn [first_line]. cbn. now rewrite digits_no_newline.
Qed.

Lemma pretty_N_char_digit d :
  (d < 10)%N ->
  is_digit (pretty_N_char d) = true /\ digit_value (pretty_N_char d) = Z.of_N d.
Proof.
  intros Hd.
  assert (d = 0 \/ d = 1 \/ d = 2 \/ d = 3 \/ d = 4 \/ d = 5 \/ d = 6 \/ d = 7
          \/ d = 8 \/ d = 9)%N as H by lia.
  repeat (destruct H as [->|H]; [now split|]). subst. now split.
Qed.

(** The decimal text of a positive number, in front of more digits. *)
Lemma pretty_N_go_decimal x :
  forall s,
    (0 < x)%N -> s = "" \/ digits s ->
    digits (pretty_N_go x s)
    /\ decimal (pretty_N_go x s)
       = Z.of_N x * 10 ^ Z.of_nat (String.length s) + decimal s.
Proof.
  induction (N.lt_wf_0 x) as [x _ IH]. intros s Hx Hs.
  rewrite pretty_N_go_step by exact Hx.
  destruct (pretty_N_char_digit (x `mod` 10)%N) as [Hdig Hval]; [now apply N.mod_lt|].
  set (c := pretty_N_char (x `mod` 10)) in *.
  assert (digits (String c s)) as Hcs.
  { destruct Hs as [->|Hs]; [now apply digits_last | now apply digits_more]. }
  assert (decimal (String c s)
          = Z.of_N (x `mod` 10) * 10 ^ Z.of_nat (String.length s) + decimal s) as Hdec.
  { cbn [decimal]. now rewrite Hval. }
  pose proof (N.div_mod x 10 ltac:(discriminate)) as Hx10.
  destruct (N.eq_dec (x `div` 10)%N 0%N) as [Hz|Hnz].
  - rewrite Hz, pretty_N_go_0. split; [exact Hcs|]. rewrite Hdec.
    f_equal. f_equal. lia.
  - destruct (IH (x `div` 10)%N) with (s := String c s) as [IHd IHv].
    + apply N.div_lt; lia.
    + now apply N.neq_0_lt_0.
    + now right.
    + split; [exact IHd|]. rewrite IHv, Hdec. cbn [String.length].
      rewrite pow_of_nat_succ.
      replace (Z.of_N x) with (10 * Z.of_N (x `div` 10) + Z.of_N (x `mod` 10)) by lia.
      ring.
Qed.

Lemma numeral_value_digits d : digits d -> numeral_value d = decimal d.
Proof.
  intros Hd. destruct (digits_head d Hd) as (c & d' & -> & Hc).
  unfold numeral_value. now rewrite (is_digit_not_minus c Hc).
Qed.

(** [str] writes a numeral that denotes the number. *)
Lemma str_numeral z : numeral (Format.str z) /\ numeral_value (Format.str z) = z.
Proof.
  assert (forall p, digits (pretty_N (Npos p)) /\ decimal (pretty_N (Npos p)) = Zpos p)
    as Hpos.
  { intros p. unfold pretty_N. rewrite decide_False by discriminate.
    destruct (pretty_N_go_decimal (Npos p) "") as [Hd Hv]; [lia | now left |].
    split; [exact Hd|]. rewrite Hv. cbn. lia. }
  unfold Format.str. destruct z as [|p|p].
  - split; [apply numeral_plain, digits_last; reflexivity | reflexivity].
  - destruct (Hpos p) as [Hd Hv].
    change (pretty (Zpos p)) with (pretty_N (Npos p)).
    split; [now apply numeral_plain|]. now rewrite numeral_value_digits.
  - destruct (Hpos p) as [Hd Hv].
    change (pretty (Zneg p)) with (String "-"%char (pretty_N (N.pos p))).
    split; [now apply numeral_minus|].
    unfold numeral_value. cbn. rewrite Hv. reflexivity.
Qed.

(** The digits [str] writes: no more than the magnitude needs. *)
Lemma pretty_N_go_length x :
  forall s k,
    (0 < x)%N -> (x < 10 ^ N.of_nat (S k))%N ->
    (String.length (pretty_N_go x s) <= S k + String.length s)%nat.
Proof.
  induction (N.lt_wf_0 x) as [x _ IH]. intros s k Hx Hk.
  rewrite pretty_N_go_step by exact Hx.
  destruct (N.eq_dec (x `div` 10)%N 0%N) as [Hz|Hnz].
  - rewrite Hz, pretty_N_go_0. simpl. lia.
  - destruct k as [|k].
    + exfalso. apply Hnz. apply N.div_small. exact Hk.
    + etransitivity.
      * apply (IH (x `div` 10)%N) with (k := k).
        -- apply N.div_lt; lia.
        -- now apply N.neq_0_lt_0.
        -- apply N.Div0.div_lt_upper_bound.
           replace (N.of_nat (S (S k))) with (N.succ (N.of_nat (S k))) in Hk by lia.
           now rewrite N.pow_succ_r' in Hk.
      * simpl. lia.
Qed.

Lemma str_digits z k :
  (0 < k)%nat -> Z.abs z < 10 ^ Z.of_nat k -> (numeral_digits (Format.str z) <= k)%nat.
Proof.
  intros Hk Hz. destruct k as [|k]; [lia|]. clear Hk.
  assert (forall p, Zpos p < 10 ^ Z.of_nat (S k) ->
                    (String.length (pretty_N (Npos p)) <= S k)%nat) as Hpos.
  { intros p Hp. unfold pretty_N. rewrite decide_False by discriminate.
    etransitivity; [apply pretty_N_go_length with (k := k); [lia|]|simpl; lia].
    apply N2Z.inj_lt. rewrite N2Z.inj_pow. rewrite nat_N_Z. exact Hp. }
  unfold Format.str. destruct z as [|p|p].
  - simpl. lia.
  - change (pretty (Zpos p)) with (pretty_N (Npos p)).
    etransitivity; [apply numeral_digits_le|]. now apply Hpos.
  - change (pretty (Zneg p)) with (String "-"%char (pretty_N (N.pos p))).
    unfold numeral_digits. change (Ascii.eqb "-" "-") with true. cbv iota.
    now apply Hpos.
Qed.

Lemma format_line_not_oversized e :
  ev_mode e = "+" \/ ev_mode e = "-" ->
  Z.abs (ev_offset e) < 10 ^ Z.of_nat max_str_digits ->
  Z.abs (ev_size e) < 10 ^ Z.of_nat max_str_digits ->
  ~ oversized_line (format_line e).
Proof.
  intros Hm Ho Hz Hover.
  apply oversized_line_match_here in Hover as (m' & o' & z' & Hmatch & _ & _ & Hlong).
  destruct (str_numeral (ev_offset e)) as [Hno _], (str_numeral (ev_size e)) as [Hnz _].
  assert (match_here (format_line e)
          = Some (ev_mode e, Format.str (ev_offset e), Format.str (ev_size e))) as Hmatch'.
  { unfold format_line. destruct Hm as [-> | ->]; now apply match_here_complete. }
  rewrite Hmatch' in Hmatch. injection Hmatch as <- <- <-.
  assert (0 < max_str_digits)%nat as Hpos by (unfold max_str_digits; lia).
  pose proof (str_digits _ _ Hpos Ho). pose proof (str_digits _ _ Hpos Hz). lia.
Qed.

Lemma format_line_event_line e :
  ev_mode e = "+" \/ ev_mode e = "-" -> event_line (format_line e) e.
Proof.
  intros Hm. exists (Format.str (ev_offset e)), (Format.str (ev_size e)).
  destruct (str_numeral (ev_offset e)) as [Ho Hvo], (str_numeral (ev_size e)) as [Hz Hvz].
  repeat split; auto.
Qed.

Lemma format_line_no_newline e :
  ev_mode e = "+" \/ ev_mode e = "-" -> first_line (format_line e) = format_line e.
Proof.
  intros Hm. unfold format_line.
  repeat apply no_newline_app;
    try (apply numeral_no_newline, str_numeral); try reflexivity.
  destruct Hm as [-> | ->]; reflexivity.
Qed.

Lemma lines_join_lines ls :
  ls <> [] -> Forall (fun l => first_line l = l) ls -> lines (join_lines ls) = ls.
Proof.
  intros Hne Hls. induction Hls as [|l ls Hl Hls IH]; [congruence|].
  destruct ls as [|l' ls].
  - now apply lines_single.
  - change (join_lines (l :: l' :: ls)) with (l ++ String newline (join_lines (l' :: ls))).
    rewrite lines_app_newline, lines_single by exact Hl.
    now rewrite IH.
Qed.

Lemma empty_line_skipped : forall e, ~ event_line "" e.
Proof.
  intros e He. apply event_line_match_here in He as (? & ? & He & _). discriminate.
Qed.

End MoreParser.

(** X12. Parsing is done line by line: when two texts are parsed, the
    events of the two joined by a newline are the events of the first
    followed by those of the second. *)
Theorem parse_events_app (a b : string) (events_a events_b : list event) :
  parse_events a = Returned events_a ->
  parse_events b = Returned events_b ->
  parse_events (a +:+ String newline b) = Returned (events_a ++ events_b).
Proof.
  intros Ha Hb. unfold parse_events in *.
  rewrite (proj1 (findall_lines a)) in Ha. rewrite (proj1 (findall_lines b)) in Hb.
  rewrite (proj1 (findall_lines _)), lines_app_newline, omap_app.
  now apply comprehension_app.
Qed.

Lemma parse_events_app_witness :
  parse_events ("+ 0 8" +:+ String newline "- 4 4")
  = Returned ([("+"%string, 0, 8)] ++ [("-"%string, 4, 4)]).
Proof.
  apply (parse_events_app "+ 0 8" "- 4 4"); reflexivity.
Defined.

(** X13. Writing and reading back: events whose mode is ['+'] or ['-']
    and whose numbers are below [10 ^ 4300] in magnitude, written one per
    line as mode, offset and size in decimal, are parsed back as the same
    list, whatever the signs of the numbers. *)
Theorem parse_events_format_lines (events : list event) :
  Forall (fun e => ev_mode e = "+"%string \/ ev_mode e = "-"%string) events ->
  Forall (fun e => Z.abs (ev_offset e) < 10 ^ Z.of_nat max_str_digits
                   /\ Z.abs (ev_size e) < 10 ^ Z.of_nat max_str_digits) events ->
  parse_events (join_lines (format_line <$> events)) = Returned events.
Proof.
  intros Hmodes Hsmall.
  assert (Forall (fun l => first_line l = l) (format_line <$> events)) as Hnl.
  { apply Forall_fmap. eapply Forall_impl; [exact Hmodes|].
    intros e1 Hm. now apply format_line_no_newline. }
  assert (Forall (fun l => ~ oversized_line l) (lines (join_lines (format_line <$> events))))
    as Hshort.
  { destruct events as [|e events].
    - cbn. constructor; [|constructor]. apply short_line_not_oversized. cbn. lia.
    - rewrite lines_join_lines by (discriminate || exact Hnl).
      apply Forall_fmap. rewrite Forall_forall in Hmodes, Hsmall. apply Forall_forall.
      intros e1 He1. destruct (Hsmall e1 He1).
      apply format_line_not_oversized; auto. }
  destruct (parse_events_short _ Hshort) as (events' & Hp & Hl).
  rewrite Hp. f_equal.
  destruct events as [|e events].
  - cbn in Hl. inversion Hl as [| |? ? ? _ Hrest]; subst.
    + exfalso. eapply empty_line_skipped. eassumption.
    + now inversion Hrest.
  - rewrite lines_join_lines in Hl by (discriminate || exact Hnl).
    eapply parsed_lines_functional; [exact Hl|]. clear Hl Hp Hshort Hnl Hsmall.
    induction Hmodes as [|e1 es Hm _ IH]; [constructor|].
    rewrite fmap_cons. constructor; [now apply format_line_event_line | exact IH].
Qed.

Lemma parse_events_format_lines_witness :
  format_line <$> [("+"%string, -16, 4); ("-"%string, 0, -250)]
  = ["+ -16 4"%string; "- 0 -250"%string]
  /\ parse_events
       (join_lines (format_line <$> [("+"%string, -16, 4); ("-"%string, 0, -250)]))
     = Returned [("+"%string, -16, 4); ("-"%string, 0, -250)].
Proof.
  split; [reflexivity|].
  apply parse_events_format_lines.
  - constructor; [left; reflexivity|].
    constructor; [right; reflexivity|]. constructor.
  - repeat constructor; vm_compute; reflexivity.
Defined.

(** ** The generator and its consumer *)

Section Generator.

Implicit Types (events rest : list event) (allocated : list Z) (l : layout).

(** The progress texts written for the events [first] to
    [first + count - 1] of [total]. *)
Local Abbreviation progress_from total first count :=
  ((fun done => Progress (progress_fraction done total) done total) <$> seq first count).

Lemma list_of_suspended l lo n total rest :
  forall idx allocated extra,
    list_of (S (length rest) + extra) (Suspended l lo n total idx rest allocated)
    = Some (Returned (replay_loop l lo n (S idx) rest allocated),
            progress_from total (S idx) (S (length rest)) ++ [AllDone]).
Proof.
  induction rest as [|e rest IH]; intros idx allocated extra; [reflexivity|].
  change (S (length (e :: rest)) + extra)%nat with (S (S (length rest) + extra)).
  cbn [list_of next loop_head]. rewrite IH. reflexivity.
Qed.

Lemma nexts_suspended l lo n total :
  forall k rest idx allocated,
    (k <= length rest)%nat ->
    nexts k (Suspended l lo n total idx rest allocated)
    = (Yields <$> take k (replay_loop l lo n (S idx) rest allocated),
       Suspended l lo n total (idx + k) (drop k rest)
         (apply_events lo allocated (take k rest)),
       progress_from total (S idx) k).
Proof.
  induction k as [|k IH]; intros rest idx allocated Hk.
  - cbn. now rewrite Nat.add_0_r, drop_0.
  - destruct rest as [|e rest]; [cbn in Hk; lia|].
    cbn [nexts next loop_head]. rewrite IH by (cbn in Hk; lia).
    replace (S idx + k)%nat with (idx + S k)%nat by lia. reflexivity.
Qed.

(** Running the generator to its end gives the frames of
    [replay_iterate], or its exception. *)
Lemma list_of_created contents events :
  parse_events contents = Returned events ->
  forall extra,
    list_of (S (length events) + extra) (Created contents)
    = Some (replay_iterate contents,
            match replay_iterate contents with
            | Returned (_ :: _) => progress_log (length events) ++ [AllDone]
            | _ => []
            end).
Proof.
  intros Hp extra. destruct events as [|e0 rest].
  { rewrite (replay_iterate_empty _ Hp).
    change (S (length (@nil event)) + extra)%nat with (S extra).
    cbn [list_of]. unfold next. now rewrite Hp. }
  change (S (length (e0 :: rest)) + extra)%nat with (S (S (length rest) + extra)).
  destruct (calc_bounds_nonempty (e0 :: rest)) as (lo & hi & Hb & _); [discriminate|].
  cbn [list_of]. unfold next. rewrite Hp. cbv beta iota. rewrite Hb.
  destruct (Z.le_gt_cases lo hi) as [Hle|Hlt].
  - destruct (replay_iterate_frames _ _ _ _ Hp ltac:(discriminate) Hb Hle) as (l & Hl & ->).
    rewrite Hl. cbn [loop_head replay_loop]. rewrite list_of_suspended. reflexivity.
  - rewrite (replay_iterate_negative _ _ _ _ Hp ltac:(discriminate) Hb Hlt).
    unfold grid_layout. rewrite ceil_sqrt_negative by lia. reflexivity.
Qed.

Lemma replay_iterate_length contents events frames :
  parse_events contents = Returned events ->
  replay_iterate contents = Returned frames ->
  length frames = length events.
Proof.
  intros Hp Hr.
  destruct (replay_iterate_inv _ _ _ Hp Hr) as [[-> ->]|(lo & hi & l & _ & _ & _ & ->)];
    [reflexivity | apply length_replay_loop].
Qed.

(** A run that returns frames, consumed as a list. *)
Lemma list_of_returned contents frames extra :
  replay_iterate contents = Returned frames ->
  list_of (S (length frames) + extra) (Created contents)
  = Some (Returned frames,
          match frames with
          | [] => []
          | _ :: _ => progress_log (length frames) ++ [AllDone]
          end).
Proof.
  intros Hr. destruct (replay_iterate_parsed _ _ Hr) as (events & Hp).
  rewrite (replay_iterate_length _ _ _ Hp Hr), (list_of_created _ _ Hp), Hr.
  now destruct frames.
Qed.

Lemma nexts_S k g :
  nexts (S k) g
  = match next g with
    | (Yields fr, g', out) =>
        let '(rs, g'', out') := nexts k g' in (Yields fr :: rs, g'', out ++ out')
    | (r, g', out) => ([r], g', out)
    end.
Proof. reflexivity. Qed.

Lemma nexts_suspended_all l lo n total rest :
  forall idx allocated,
    nexts (S (length rest)) (Suspended l lo n total idx rest allocated)
    = ((Yields <$> replay_loop l lo n (S idx) rest allocated) ++ [StopIteration],
       Finished,
       progress_from total (S idx) (S (length rest)) ++ [AllDone]).
Proof.
  induction rest as [|e rest IH]; intros idx allocated; [reflexivity|].
  change (length (e :: rest)) with (S (length rest)).
  rewrite nexts_S. unfold next at 1. cbn [loop_head]. cbv beta iota.
  rewrite IH. reflexivity.
Qed.

End Generator.

(** X14. When the run returns frames, consuming the generator with
    [list] gives these frames and writes one progress text per frame,
    numbered 1 to N, followed by the closing text; for a run without
    frames nothing at all is written. *)
Theorem list_of_generator (contents : string) (frames : list frame) (extra : nat) :
  replay_iterate contents = Returned frames ->
  list_of (S (length frames) + extra) (Created contents)
  = Some (Returned frames,
          match frames with
          | [] => []
          | _ :: _ => progress_log (length frames) ++ [AllDone]
          end).
Proof. apply list_of_returned. Qed.

Lemma list_of_generator_witness :
  exists frames,
    replay_iterate ("+ 0 8" +:+ String newline "- 4 4") = Returned frames
    /\ length frames = 2%nat
    /\ list_of (S (length frames) + 0) (Created ("+ 0 8" +:+ String newline "- 4 4"))
       = Some (Returned frames,
               match frames with
               | [] => []
               | _ :: _ => progress_log (length frames) ++ [AllDone]
               end).
Proof.
  eexists. split; [reflexivity|]. split; [reflexivity|].
  apply list_of_generator. reflexivity.
Defined.

(** X15. The generator is lazy and its progress texts lag one frame
    behind: after [k + 1] calls of [next] on a fresh generator, the
    first [k + 1] frames have been yielded, only the progress texts of
    the first [k] events have been written, the closing text has not,
    and the generator is suspended at event [k]. *)
Theorem next_is_lazy (contents : string) (frames : list frame) (k : nat) :
  replay_iterate contents = Returned frames ->
  (k < length frames)%nat ->
  exists l lo n rest allocated,
    nexts (S k) (Created contents)
    = (Yields <$> take (S k) frames,
       Suspended l lo n (length frames) k rest allocated,
       take k (progress_log (length frames))).
Proof.
  intros Hr Hk. destruct (replay_iterate_parsed _ _ Hr) as (events & Hp).
  destruct (replay_iterate_inv _ _ _ Hp Hr)
    as [[_ ->]|(lo & hi & l & Hne & Hb & Hl & ->)]; [cbn in Hk; lia|].
  rewrite length_replay_loop in *.
  destruct events as [|e0 rest]; [congruence|].
  exists l, lo, (hi - lo), (drop k rest),
    (apply_events lo (apply_event lo (zeros l) e0) (take k rest)).
  cbn [nexts]. unfold next at 1. rewrite Hp. cbv beta iota. rewrite Hb, Hl.
  cbn [loop_head].
  rewrite nexts_suspended by (cbn in Hk; lia).
  unfold progress_log. rewrite <- fmap_take, take_seq.
  replace (k `min` length (e0 :: rest))%nat with k by lia.
  reflexivity.
Qed.

Lemma next_is_lazy_witness :
  exists fr0 fr1 fr2 g,
    replay_iterate ("+ 0 8" +:+ String newline "- 4 4" +:+ String newline "- 0 4")
    = Returned [fr0; fr1; fr2]
    /\ nexts 2 (Created ("+ 0 8" +:+ String newline "- 4 4" +:+ String newline "- 0 4"))
       = ([Yields fr0; Yields fr1], g, [Progress (1 # 3) 1 3]).
Proof.
  destruct (next_is_lazy
              ("+ 0 8" +:+ String newline "- 4 4" +:+ String newline "- 0 4")
              _ 1 eq_refl ltac:(vm_compute; lia))
    as (l & lo & n & rest & allocated & H).
  do 3 eexists. exists (Suspended l lo n 3 1 rest allocated).
  split; [reflexivity|]. exact H.
Defined.

(** X16. When the run returns frames, [replay_to_gif] saves an
    animation exactly when there is a frame: the call of [save] is made
    on the first frame, with the given path and the remaining frames
    appended in order, after the progress texts and the closing text were
    written; for a run without frames nothing is saved and nothing is
    written. *)
Theorem replay_to_gif_saves_every_frame
    (contents out_gif : string) (frames : list frame) (extra : nat) :
  replay_iterate contents = Returned frames ->
  replay_to_gif (S (length frames) + extra) contents out_gif
  = Some (Returned
            match frames with
            | [] => None
            | first :: more => Some (SaveCall first out_gif true more false 1 0)
            end,
          match frames with
          | [] => []
          | _ :: _ => progress_log (length frames) ++ [AllDone]
          end).
Proof.
  intros Hr. unfold replay_to_gif. now rewrite (list_of_returned _ _ _ Hr).
Qed.

Lemma replay_to_gif_saves_every_frame_witness :
  exists first second,
    replay_iterate ("+ 0 8" +:+ String newline "- 4 4") = Returned [first; second]
    /\ replay_to_gif (S (length [first; second]) + 0)
         ("+ 0 8" +:+ String newline "- 4 4") "out.gif"
       = Some (Returned (Some (SaveCall first "out.gif" true [second] false 1 0)),
               progress_log (length [first; second]) ++ [AllDone]).
Proof.
  do 2 eexists. split; [reflexivity|].
  apply (replay_to_gif_saves_every_frame
           ("+ 0 8" +:+ String newline "- 4 4") "out.gif" [_; _] 0).
  reflexivity.
Defined.



(** X18. The canvas of every frame is at least 340 pixels wide and 64
    high, and at most 2068 wide for sizes up to 4194304 units.  The grid
    image keeps a margin of 10 pixels on the left, right and top, and
    each of the three texts starts at least 10 pixels below the image
    and ends at least 10 pixels above the bottom edge, for the text
    height of 10 the code reckons with. *)
Theorem canvas_margins (allocations_size : Z) (l : layout) :
  grid_layout allocations_size = Returned l ->
  let c := frame_canvas l in
  340 <= (canvas_size c).1
  /\ 64 <= (canvas_size c).2
  /\ (allocations_size <= 4194304 -> (canvas_size c).1 <= 2068)
  /\ (paste_at c).1 + (pasted_size c).1 + 10 = (canvas_size c).1
  /\ Forall (fun xy => xy.1 = (paste_at c).1
                       /\ (paste_at c).2 + (pasted_size c).2 + 10 <= xy.2
                       /\ xy.2 + text_height c + 10 <= (canvas_size c).2)
       (text_at c).
Proof.
  intros Hl. destruct (grid_layout_shape _ _ Hl) as (Hn & Hw & Hh & _).
  destruct (grid_layout_spec _ Hn) as (l' & r & Hl' & (Hr0 & Hrn & Hrmin) & Hwidth & _ & _ & Hcs).
  rewrite Hl in Hl'. injection Hl' as <-.
  pose proof (Z.mul_div_le 2048 (width l) ltac:(lia)) as Hdiv1.
  pose proof (Z.mul_succ_div_gt 2048 (width l) ltac:(lia)) as Hdiv2.
  assert (1 <= cell_size l <= 10) as Hc by lia.
  assert (320 <= width l * cell_size l) as Hwide.
  { destruct (Z.le_gt_cases (width l) 204).
    - assert (10 <= 2048 / width l) by (apply Z.div_le_lower_bound; lia). nia.
    - destruct (Z.le_gt_cases (2048 / width l) 1); nia. }
  assert (allocations_size <= 4194304 -> width l * cell_size l <= 2048) as Hnarrow.
  { intros Hsmall. assert (r <= 2048) by (apply Hrmin; lia).
    destruct (Z.le_gt_cases (2048 / width l) 10); nia. }
  cbn. split; [lia|]. split; [nia|]. split; [intros; lia|]. split; [lia|].
  repeat constructor; cbn; lia.
Qed.

Lemma canvas_margins_witness :
  grid_layout 1000 = Returned (Layout 32 32 24 10)
  /\ canvas_size (frame_canvas (Layout 32 32 24 10)) = (340, 384)
  /\ let c := frame_canvas (Layout 32 32 24 10) in
     340 <= (canvas_size c).1
     /\ 64 <= (canvas_size c).2
     /\ (1000 <= 4194304 -> (canvas_size c).1 <= 2068)
     /\ (paste_at c).1 + (pasted_size c).1 + 10 = (canvas_size c).1
     /\ Forall (fun xy => xy.1 = (paste_at c).1
                          /\ (paste_at c).2 + (pasted_size c).2 + 10 <= xy.2
                          /\ xy.2 + text_height c + 10 <= (canvas_size c).2)
          (text_at c).
Proof.
  split; [reflexivity|]. split; [reflexivity|].
  apply (canvas_margins 1000). reflexivity.
Defined.

(** ** Colours, cancelling pairs and modes *)

(** X19. Overlaps and double frees show in red: when no event has a
    negative size, the unit at address [min_offset + j] is green in a
    frame if the events so far cover it a net once, dark blue if they
    cover it a net zero times, and red for any other net count. *)
Theorem unit_colour_by_events
    (contents : string) (events : list event) (lo hi : Z)
    (frames : list frame) (k : nat) (fr : frame) (j : nat) :
  parse_events contents = Returned events ->
  Forall (fun e => 0 <= ev_size e) events ->
  calc_bounds events = (Int lo, Int hi) ->
  replay_iterate contents = Returned frames ->
  frames !! k = Some fr ->
  Z.of_nat j < hi - lo ->
  let net := net_count (take (S k) events) (lo + Z.of_nat j) in
  image fr !! j
  = Some (if net =? 1 then free_colour
          else if net =? 0 then used_colour else invalid_colour).
Proof.
  intros Hp Hsize Hb Hr Hk Hj net.
  destruct (replay_iterate_lookup _ _ _ _ _ _ _ Hp Hb Hr Hk) as (l & e & Hl & He & ->).
  rewrite render_frame_image.
  pose proof (length_zeros _ _ Hl) as Hlen.
  destruct (grid_layout_shape _ _ Hl) as (_ & _ & _ & Hpad & _).
  eapply unit_colour; eauto using length_counters_at.
  apply (counters_at_net_count events lo hi); auto. lia.
Qed.

Lemma unit_colour_by_events_witness :
  exists fr0 fr1,
    replay_iterate ("+ 0 8" +:+ String newline "+ 4 8") = Returned [fr0; fr1]
    /\ net_count [("+"%string, 0, 8); ("+"%string, 4, 8)] (0 + Z.of_nat 5) = 2
    /\ image fr1 !! 5%nat = Some invalid_colour
    /\ let net := net_count (take 2 [("+"%string, 0, 8); ("+"%string, 4, 8)])
                    (0 + Z.of_nat 5) in
       image fr1 !! 5%nat
       = Some (if net =? 1 then free_colour
               else if net =? 0 then used_colour else invalid_colour).
Proof.
  do 2 eexists. split; [reflexivity|]. split; [reflexivity|]. split; [reflexivity|].
  eapply (unit_colour_by_events ("+ 0 8" +:+ String newline "+ 4 8")
            [("+"%string, 0, 8); ("+"%string, 4, 8)] 0 12)
    with (k := 1%nat).
  - reflexivity.
  - repeat constructor; vm_compute; discriminate.
  - reflexivity.
  - reflexivity.
  - reflexivity.
  - reflexivity.
Defined.

(** X20. A ['+'] event and a later ['-'] event over the same range cancel
    whatever events come between them: the counters end as if neither
    had been in the log. *)
Theorem paired_events_cancel
    (min_offset o s : Z) (between : list event) (allocated : list Z) :
  apply_events min_offset allocated
    (("+"%string, o, s) :: between ++ [("-"%string, o, s)])
  = apply_events min_offset allocated between.
Proof.
  apply list_eq. intros j. rewrite !lookup_apply_events.
  destruct (allocated !! j) as [c|]; [|reflexivity]. cbn [fmap option_fmap option_map].
  f_equal. cbn [slice_sum]. rewrite slice_sum_app. cbn [slice_sum].
  unfold event_delta, ev_mode, ev_offset, ev_size. cbn.
  destruct (in_slice _ _ _ _); lia.
Qed.

(** X21. Every parsed event has the mode ["+"] or ["-"], so the amount an
    event adds to its counters is 1 for ['+'] and -1 for ['-'] and for
    nothing else. *)
Theorem parsed_events_have_modes (contents : string) (events : list event) :
  parse_events contents = Returned events ->
  Forall (fun e => (ev_mode e = "+"%string /\ event_delta e = 1)
                   \/ (ev_mode e = "-"%string /\ event_delta e = -1)) events.
Proof.
  intros Hp. eapply Forall_impl; [exact (parse_events_modes _ _ Hp)|].
  intros e [Hm|Hm]; [left|right]; (split; [exact Hm|]);
    unfold event_delta; now rewrite Hm.
Qed.

Lemma parsed_events_have_modes_witness :
  Forall (fun e => (ev_mode e = "+"%string /\ event_delta e = 1)
                   \/ (ev_mode e = "-"%string /\ event_delta e = -1))
    [("+"%string, 0, 8); ("-"%string, 4, 4)].
Proof.
  apply (parsed_events_have_modes ("+ 0 8" +:+ String newline "- 4 4")). reflexivity.
Defined.

(** X22. Every cell of every frame has one of four colours: dark blue,
    green, red or the background grey. *)
Theorem four_colours
    (contents : string) (frames : list frame) (k : nat) (fr : frame)
    (j : nat) (col : colour) :
  replay_iterate contents = Returned frames ->
  frames !! k = Some fr ->
  image fr !! j = Some col ->
  col = used_colour \/ col = free_colour \/ col = invalid_colour
  \/ col = (background, background, background).
Proof.
  intros Hr Hk Hj. destruct (replay_iterate_parsed _ _ Hr) as (events & Hp).
  assert (events <> []) as Hne.
  { intros ->. rewrite (replay_iterate_empty _ Hp) in Hr. injection Hr as <-.
    destruct k; discriminate. }
  destruct (calc_bounds_nonempty events Hne) as (lo & hi & Hb & _).
  destruct (replay_iterate_lookup _ _ _ _ _ _ _ Hp Hb Hr Hk) as (l & e & Hl & He & ->).
  rewrite render_frame_image in Hj.
  assert (is_Some (counters_at events lo l k !! j)) as [c Hc].
  { apply lookup_lt_is_Some. rewrite <- (length_render_image _ (padding_pixels l)).
    now apply lookup_lt_Some in Hj. }
  rewrite (lookup_render_image _ _ _ _ Hc) in Hj. injection Hj as <-.
  destruct ((c <? 0) || (c >? 1)); [auto|].
  destruct (c =? 1); [auto|].
  destruct (negb _ && _); auto.
Qed.

Lemma four_colours_witness :
  exists fr,
    replay_iterate "+ 0 10" = Returned [fr]
    /\ image fr !! 20%nat = Some (background, background, background)
    /\ ((background, background, background) = used_colour
        \/ (background, background, background) = free_colour
        \/ (background, background, background) = invalid_colour
        \/ (background, background, background) = (background, background, background)).
Proof.
  eexists. split; [reflexivity|]. split; [reflexivity|].
  eapply (four_colours "+ 0 10") with (k := 0%nat) (j := 20%nat); reflexivity.
Defined.

(** X23. The generator is single pass: the call of [next] after the last
    frame gives [StopIteration] and leaves the generator finished, and
    listing a finished generator gives no frame and writes nothing. *)
Theorem generator_single_pass (contents : string) (frames : list frame) :
  replay_iterate contents = Returned frames ->
  (exists out,
     nexts (S (length frames)) (Created contents)
     = ((Yields <$> frames) ++ [StopIteration], Finished, out))
  /\ forall fuel, list_of (S fuel) Finished = Some (Returned [], []).
Proof.
  intros Hr. split; [|reflexivity].
  destruct (replay_iterate_parsed _ _ Hr) as (events & Hp).
  destruct (replay_iterate_inv _ _ _ Hp Hr)
    as [[-> ->]|(lo & hi & l & Hne & Hb & Hl & ->)].
  { exists []. cbn [nexts length]. unfold next. now rewrite Hp. }
  rewrite length_replay_loop.
  destruct events as [|e0 rest]; [congruence|].
  eexists. change (length (e0 :: rest)) with (S (length rest)).
  rewrite nexts_S. unfold next at 1. rewrite Hp. cbv beta iota. rewrite Hb, Hl.
  cbn [loop_head]. cbv beta iota. rewrite nexts_suspended_all. reflexivity.
Qed.

Lemma generator_single_pass_witness :
  (exists out,
     nexts (S (length [render_frame (Layout 32 1 22 10) 10 0 ("+"%string, 0, 10)
                         (counters_at [("+"%string, 0, 10)] 0 (Layout 32 1 22 10) 0)]))
       (Created "+ 0 10")
     = ((Yields <$> [render_frame (Layout 32 1 22 10) 10 0 ("+"%string, 0, 10)
                       (counters_at [("+"%string, 0, 10)] 0 (Layout 32 1 22 10) 0)])
        ++ [StopIteration], Finished, out))
  /\ forall fuel, list_of (S fuel) Finished = Some (Returned [], []).
Proof.
  apply (generator_single_pass "+ 0 10"). reflexivity.
Defined.
